(** * Payout and missed-shift reports: a shallow embedding

    The development follows the three request handlers of the repository:

    - [src/app/api/calculate/route.ts]  (module [Calculate]): the flat payout
      report;
    - [src/unnamed/part_000]            (module [Locations]): the payout
      report partitioned by location, which ships a per-shift snapshot;
    - [src/app/api/crossref/route.ts]   (module [Crossref]): the missed-shift
      report, an anti-join of scheduled shifts against timesheets.

    Modelling conventions.

    - A JavaScript string is a [string]; each character stands for one code
      unit in the range 0..255, with the case mapping and the white space of
      that range.
    - A JavaScript number is carried in two ways. In the modules [Js],
      [Payout], [Calculate] and [Locations] it is a [Js.number]: [NaN], the
      two infinities, or a finite value held as an exact rational, with exact
      arithmetic; rounding and overflow of the arithmetic are left out there.
      The module [Binary64] repeats the currency parser and the two payout
      handlers over IEEE-754 binary64 numbers, with the primitive [+], [-],
      [/] and [<] of [PrimFloat] and decimal literals rounded to the nearest
      double; it is the model for what depends on rounding.
    - A raw CSV record is the list of its [Object.entries], in enumeration
      order, with values as the CSV parser produces them: strings, or
      [null]/[undefined]. A normalized record is a plain object: the finite
      map of its own columns, on top of the properties every object inherits
      from [Object.prototype]. Assigning a string to [__proto__] stores
      nothing, and the operator [in] sees the inherited names
      ([hasProperty]). The handlers read columns by fixed names, none of
      which is inherited, so such a read is a lookup in the map.
    - A JavaScript [Map] is an association list in insertion order; a
      JavaScript [Set] of strings is a [gset string].
    - [localeCompare] depends on the host's collation tables and is a
      parameter of the sorts. *)

From Stdlib Require Import Ascii String QArith Qabs Lqa.
From Stdlib Require PrimFloat SpecFloat FloatOps.
From stdpp Require Import gmap strings list fin_maps.
Import (notations) PrimFloat.

Open Scope string_scope.
Set Warnings "-inexact-float".

(** ** Characters and strings *)

Module Js.

(** Code units that [String.prototype.trim] and the regular expression class
    [\s] treat as white space: TAB, LF, VT, FF, CR, SPACE and NBSP. *)
Definition isWhiteSpace (c : ascii) : bool :=
  let n := N_of_ascii c in
  (((9 <=? n) && (n <=? 13)) || (n =? 32) || (n =? 160))%N.

(** [toLowerCase] on one code unit: A-Z and the upper-case letters of the
    Latin-1 block (all of 0xC0..0xDE but the multiplication sign 0xD7). *)
Definition lowerChar (c : ascii) : ascii :=
  let n := N_of_ascii c in
  if (((65 <=? n) && (n <=? 90))
      || ((192 <=? n) && (n <=? 222) && negb (n =? 215)))%N
  then ascii_of_N (n + 32) else c.

Fixpoint toLowerCase (s : string) : string :=
  match s with
  | EmptyString => EmptyString
  | String c s' => String (lowerChar c) (toLowerCase s')
  end.

Fixpoint trimStart (s : string) : string :=
  match s with
  | EmptyString => EmptyString
  | String c s' => if isWhiteSpace c then trimStart s' else s
  end.

Fixpoint trimEnd (s : string) : string :=
  match s with
  | EmptyString => EmptyString
  | String c s' =>
      match trimEnd s' with
      | EmptyString => if isWhiteSpace c then EmptyString else String c EmptyString
      | t => String c t
      end
  end.

Definition trim (s : string) : string := trimEnd (trimStart s).

(** [s.replace(/[...]/g, '')]: delete every character of a class. *)
Fixpoint removeAll (cls : ascii -> bool) (s : string) : string :=
  match s with
  | EmptyString => EmptyString
  | String c s' => if cls c then removeAll cls s' else String c (removeAll cls s')
  end.

Fixpoint startsWith (p s : string) : bool :=
  match p, s with
  | EmptyString, _ => true
  | String a p', String b s' => Ascii.eqb a b && startsWith p' s'
  | String _ _, EmptyString => false
  end.

(** *** Numbers *)

Inductive number : Type :=
| NaN
| Infinity (negative : bool)
| Finite (q : Q).

Definition isFinite (n : number) : bool :=
  match n with Finite _ => true | _ => false end.

Definition isNaN (n : number) : bool :=
  match n with NaN => true | _ => false end.

Definition neg (a : number) : number :=
  match a with
  | NaN => NaN
  | Infinity s => Infinity (negb s)
  | Finite q => Finite (- q)
  end.

Definition add (a b : number) : number :=
  match a, b with
  | NaN, _ | _, NaN => NaN
  | Finite x, Finite y => Finite (x + y)
  | Infinity s, Infinity s' => if Bool.eqb s s' then Infinity s else NaN
  | Infinity s, Finite _ | Finite _, Infinity s => Infinity s
  end.

Definition sub (a b : number) : number := add a (neg b).

(** [a > b]; false as soon as one side is [NaN]. *)
Definition gt (a b : number) : bool :=
  match a, b with
  | NaN, _ | _, NaN => false
  | Finite x, Finite y => negb (Qle_bool x y)
  | Infinity s, Infinity s' => negb s && s'
  | Infinity s, Finite _ => negb s
  | Finite _, Infinity s => s
  end.

(** [a == b] on numbers; [NaN] equals nothing. *)
Definition eqb (a b : number) : bool :=
  match a, b with
  | Finite x, Finite y => Qeq_bool x y
  | Infinity s, Infinity s' => Bool.eqb s s'
  | _, _ => false
  end.

(** [a / n] for a positive count [n]. *)
Definition divCount (a : number) (n : nat) : number :=
  match a with
  | NaN => NaN
  | Infinity s => Infinity s
  | Finite q => Finite (q / inject_Z (Z.of_nat n))
  end.

(** *** [Number.parseFloat] *)

Definition isDigit (c : ascii) : bool :=
  let n := N_of_ascii c in ((48 <=? n) && (n <=? 57))%N.

Definition digitVal (c : ascii) : Z := Z.of_N (N_of_ascii c) - 48.

(** Longest prefix of decimal digits, and what follows it. *)
Fixpoint spanDigits (s : string) : list ascii * string :=
  match s with
  | String c s' =>
      if isDigit c then let '(ds, r) := spanDigits s' in (c :: ds, r)
      else ([], s)
  | EmptyString => ([], EmptyString)
  end.

Definition digitsValue (ds : list ascii) : Z :=
  fold_left (fun acc d => 10 * acc + digitVal d)%Z ds 0%Z.

(** The optional [ExponentPart]: [e] or [E], an optional sign and at least one
    digit; anything else leaves the exponent at 0. *)
Definition exponentPart (s : string) : Z :=
  match s with
  | String c r =>
      if Ascii.eqb c "e" || Ascii.eqb c "E" then
        match r with
        | String "-" r' =>
            match spanDigits r' with
            | ([], _) => 0
            | (ds, _) => - digitsValue ds
            end
        | String "+" r' => digitsValue (fst (spanDigits r'))
        | _ => digitsValue (fst (spanDigits r))
        end%Z
      else 0%Z
  | EmptyString => 0%Z
  end.

(** Magnitudes from [2^1024 - 2^970] on round to an infinity. *)
Definition overflowBound : Q := inject_Z (2 ^ 1024 - 2 ^ 970).

Definition scale10 (m e : Z) : Q :=
  if (0 <=? e)%Z then inject_Z (m * 10 ^ e)
  else Qmake m (Z.to_pos (10 ^ (- e))).

Definition ofDecimal (negative : bool) (m e : Z) : number :=
  let q := scale10 m e in
  if Qle_bool overflowBound q then Infinity negative
  else Finite (if negative then - q else q).

(** [parseFloat] reads the longest prefix that is a [StrDecimalLiteral] after
    leading white space; without one the result is [NaN]. *)
Definition parseFloat (input : string) : number :=
  let s := trimStart input in
  let '(negative, s1) :=
    match s with
    | String "-" r => (true, r)
    | String "+" r => (false, r)
    | _ => (false, s)
    end in
  if startsWith "Infinity" s1 then Infinity negative
  else
    let '(ip, s2) := spanDigits s1 in
    let '(fp, s3) :=
      match s2 with
      | String "." r => spanDigits r
      | _ => ([], s2)
      end in
    match ip, fp with
    | [], [] => NaN
    | _, _ =>
        ofDecimal negative (digitsValue (ip ++ fp))
                  (exponentPart s3 - Z.of_nat (length fp))
    end.

End Js.

(** ** Insertion-ordered maps and sets, and [Array.prototype.sort] *)

Module JsMap.
Section WithValue.
Context {V : Type}.

(** [m.get(k)] *)
Fixpoint get (k : string) (m : list (string * V)) : option V :=
  match m with
  | [] => None
  | (k', v) :: m' => if String.eqb k k' then Some v else get k m'
  end.

(** [m.set(k, v)]: an existing key keeps its position, a new one goes last. *)
Fixpoint set (k : string) (v : V) (m : list (string * V)) : list (string * V) :=
  match m with
  | [] => [(k, v)]
  | (k', v') :: m' =>
      if String.eqb k k' then (k, v) :: m' else (k', v') :: set k v m'
  end.

Definition keys (m : list (string * V)) : list string := map fst m.
End WithValue.
End JsMap.

(** [Array.from(new Set(l))]: the distinct elements in order of first
    occurrence. *)
Definition distinct (l : list string) : list string :=
  fold_left (fun acc x => if bool_decide (x ∈ acc) then acc else (acc ++ [x])%list) l [].

Section Sorting.
Context {A : Type}.
(** The comparator's result is negative, zero or positive. *)
Variable compare : A -> A -> Z.

Fixpoint insertSorted (x : A) (l : list A) : list A :=
  match l with
  | [] => [x]
  | y :: l' =>
      if (compare x y <=? 0)%Z then x :: y :: l' else y :: insertSorted x l'
  end.

(** [l.sort(compare)]: the sort is stable. *)
Fixpoint sortBy (l : list A) : list A :=
  match l with
  | [] => []
  | x :: l' => insertSorted x (sortBy l')
  end.
End Sorting.

(** A comparator for concrete runs: the order of the code units. *)
Definition codeUnitCompare (a b : string) : Z :=
  match String.compare a b with Lt => -1 | Eq => 0 | Gt => 1 end%Z.

(** ** The Normalizer and the currency parser

    [normalizeRowKeys] and [cleanCurrency] are repeated verbatim in the route
    files; they are embedded once. *)

(** A field value as the CSV parser hands it over. *)
Inductive jsval : Type :=
| JUndefined
| JNull
| JString (s : string).

(** [(v ?? '').toString()] *)
Definition valueString (v : jsval) : string :=
  match v with
  | JUndefined | JNull => ""
  | JString s => s
  end.

Definition normalizeKey (k : string) : string := Js.toLowerCase (Js.trim k).
Definition normalizeValue (v : jsval) : string := Js.trim (valueString v).

(** The property names of [Object.prototype], which every plain object
    inherits. *)
Definition objectPrototype : list string :=
  ["constructor"; "__defineGetter__"; "__defineSetter__"; "hasOwnProperty";
   "__lookupGetter__"; "__lookupSetter__"; "isPrototypeOf";
   "propertyIsEnumerable"; "toString"; "valueOf"; "__proto__";
   "toLocaleString"].

(** [name in r] on a record: own columns and inherited names. *)
Definition hasProperty (r : gmap string string) (name : string) : bool :=
  bool_decide (is_Some (r !! name)) || bool_decide (name ∈ objectPrototype).

(** One turn of the loop over [Object.entries(input)]: [out[name] = value].
    [out] starts as [{}], so under the name [__proto__] the assignment runs
    the setter inherited from [Object.prototype]; the value is a string, which
    the setter ignores, and no column is stored. *)
Definition normalizeStep (out : gmap string string) (kv : string * jsval)
  : gmap string string :=
  let name := normalizeKey kv.1 in
  if String.eqb name "__proto__" then out
  else <[name := normalizeValue kv.2]> out.

Definition normalizeRowKeys (input : list (string * jsval)) : gmap string string :=
  fold_left normalizeStep input ∅.

(** [Object.entries] of a normalized record, as input of the Normalizer. *)
Definition entries (r : gmap string string) : list (string * jsval) :=
  map (fun kv => (kv.1, JString kv.2)) (map_to_list r).

(** The character class of [/[$,\s]/]. *)
Definition currencyNoise (c : ascii) : bool :=
  Ascii.eqb c "$" || Ascii.eqb c "," || Js.isWhiteSpace c.

(** The argument of [cleanCurrency] has type [string | number]. *)
Inductive currency : Type :=
| CString (s : string)
| CNumber (n : Js.number).

Definition cleanCurrency (value : currency) : Js.number :=
  match value with
  | CNumber n => n
  | CString s =>
      let cleaned := Js.removeAll currencyNoise s in
      let n := Js.parseFloat cleaned in
      if Js.isFinite n then n else Js.Finite 0
  end.

(** ** [escapeHtml] (calculate/route.ts and unnamed/part_000) *)

Module Html.

(** [s.replace(/c/g, rep)] for a one-character pattern [c]. *)
Fixpoint replaceAll (c : ascii) (rep : string) (s : string) : string :=
  match s with
  | EmptyString => EmptyString
  | String a s' =>
      if Ascii.eqb a c then rep ++ replaceAll c rep s'
      else String a (replaceAll c rep s')
  end.

(** The double quote, written by its code so that no literal holds one. *)
Definition dquote : ascii := "034"%char.

Definition escapeHtml (s : string) : string :=
  replaceAll "'" "&#39;"
    (replaceAll dquote "&quot;"
       (replaceAll ">" "&gt;"
          (replaceAll "<" "&lt;"
             (replaceAll "&" "&amp;" s)))).

End Html.

(** ** The payout engine (calculate/route.ts)

    The handler's fixed location deny-list is a parameter of the engine, so
    that the same definitions describe the handler ([Calculate]) and a run
    with another set of excluded locations. *)

Module Payout.

Definition EXCLUDED_EMPLOYEES : gset string :=
  list_to_set ["Nick C"; "Troy"; "Andy"; "Arod"; "Danny M"; "Jay"; "Totals"; ""].

Record ShiftRecord : Type := mkShift {
  employee : string;
  location : string;
  tips : Js.number;
  cost : Js.number
}.

(** [{...row, bonus}] *)
Record BonusRow : Type := mkBonus {
  shiftOf :> ShiftRecord;
  bonus : Js.number
}.

(** [{...r, amount_owed}] *)
Record OwedShift : Type := mkOwed {
  bonusRowOf :> BonusRow;
  amount_owed : Js.number
}.

Record Agg : Type := mkAgg { total : Js.number; count : nat }.

Record Summary : Type := mkSummary {
  Employee : string;
  TotalAmountOwed : Js.number;
  ShiftsThatWereOwed : nat;
  AverageOwedPerShift : Js.number
}.

Record Report : Type := mkReport {
  summaryRows : list Summary;
  totalAmount : Js.number;
  totalShifts : nat;
  totalAvg : Js.number
}.

(** [(r[name] ?? '').toString().trim()] *)
Definition field (r : gmap string string) (name : string) : string :=
  Js.trim (default "" (r !! name)).

(** [cleanCurrency(r[name] ?? 0)] *)
Definition money (r : gmap string string) (name : string) : Js.number :=
  cleanCurrency
    (match r !! name with Some s => CString s | None => CNumber (Js.Finite 0) end).

Definition toShift (r : gmap string string) : ShiftRecord :=
  {| employee := field r "employee";
     location := field r "location";
     tips := money r "tips";
     cost := money r "cost" |}.

(** Step 2: bonus *)
Definition addBonus (row : ShiftRecord) : BonusRow :=
  {| shiftOf := row;
     bonus := if String.eqb (location row) "Fleming's Condo"
                 && Js.gt (cost row) (tips row)
              then Js.Finite 13.5 else Js.Finite 0 |}.

Definition withBonus (filtered : list ShiftRecord) : list BonusRow :=
  map addBonus filtered.

(** Step 3: source where cost > tips *)
Definition addOwed (r : BonusRow) : OwedShift :=
  {| bonusRowOf := r;
     amount_owed := Js.add (Js.sub (cost r) (tips r)) (bonus r) |}.

Definition source (rows : list BonusRow) : list OwedShift :=
  map addOwed (List.filter (fun r : BonusRow => Js.gt (cost r) (tips r)) rows).

(** Step 4: group by employee ([byEmployee]; [initialAgg] in the report by
    location, over the snapshot rows).  One turn of the loop over the rows: *)
Definition accumulate (m : list (string * Agg)) (emp : string) (amount : Js.number)
  : list (string * Agg) :=
  let cur := default {| total := Js.Finite 0; count := 0 |} (JsMap.get emp m) in
  JsMap.set emp {| total := Js.add (total cur) amount; count := count cur + 1 |} m.

Definition byEmployee {A : Type} (emp : A -> string) (amount : A -> Js.number)
    (rows : list A) : list (string * Agg) :=
  fold_left (fun m r => accumulate m (emp r) (amount r)) rows [].

(** [n > 0 ? t / n : 0] *)
Definition average (t : Js.number) (n : nat) : Js.number :=
  if (0 <? n)%nat then Js.divCount t n else Js.Finite 0.

Definition toSummary (e : string * Agg) : Summary :=
  {| Employee := e.1;
     TotalAmountOwed := total e.2;
     ShiftsThatWereOwed := count e.2;
     AverageOwedPerShift := average (total e.2) (count e.2) |}.

(** [rows.reduce((s, r) => s + amount(r), 0)] *)
Definition sumOf {A : Type} (amount : A -> Js.number) (rows : list A) : Js.number :=
  fold_left (fun s r => Js.add s (amount r)) rows (Js.Finite 0).

Section Engine.
Variable localeCompare : string -> string -> Z.

Definition sortSummaries (rows : list Summary) : list Summary :=
  sortBy (fun a b => localeCompare (Employee a) (Employee b)) rows.

(** Steps 4 to 6 of the handler, from the owed rows on. *)
Definition aggregate {A : Type} (emp : A -> string) (amount : A -> Js.number)
    (rows : list A) : Report :=
  let summary := sortSummaries (map toSummary (byEmployee emp amount rows)) in
  let totalAmount := sumOf amount rows in
  let totalShifts := length rows in
  {| summaryRows := summary;
     totalAmount := totalAmount;
     totalShifts := totalShifts;
     totalAvg := average totalAmount totalShifts |}.

Variable EXCLUDED_LOCATIONS : gset string.

(** Step 1: filtering *)
Definition keepRow (r : gmap string string) : bool :=
  let employee := field r "employee" in
  let location := field r "location" in
  if String.eqb employee "" then false
  else if bool_decide (employee ∈ EXCLUDED_EMPLOYEES) then false
  else if bool_decide (location ∈ EXCLUDED_LOCATIONS) then false
  else true.

Definition filtered (rows : list (gmap string string)) : list ShiftRecord :=
  map toShift (List.filter keepRow rows).

Definition owedRows (parsed : list (list (string * jsval))) : list OwedShift :=
  source (withBonus (filtered (map normalizeRowKeys parsed))).

Definition computePayout (parsed : list (list (string * jsval))) : Report :=
  aggregate (fun r : OwedShift => employee r) amount_owed (owedRows parsed).
End Engine.

End Payout.

Module Calculate.

Definition EXCLUDED_LOCATIONS : gset string :=
  list_to_set ["Blu on the Hudson"; "Chart House"; "Haven"; "Ruth's Chris"].

Definition POST (localeCompare : string -> string -> Z)
    (parsed : list (list (string * jsval))) : Payout.Report :=
  Payout.computePayout localeCompare EXCLUDED_LOCATIONS parsed.

End Calculate.

(** ** The payout report by location (unnamed/part_000) *)

Module Locations.
Import (coercions) Payout.

(** [{ employee, location, amountOwed }]: one row of the snapshot shipped
    with the page. *)
Record ClientRow : Type := mkClientRow {
  employee : string;
  location : string;
  amountOwed : Js.number
}.

Record Page : Type := mkPage {
  report : Payout.Report;
  dataRows : list ClientRow;
  dataLocations : list string
}.

(** Filter employees only (no location exclusions). *)
Definition keepRow (r : gmap string string) : bool :=
  let employee := Payout.field r "employee" in
  let location := Payout.field r "location" in
  if String.eqb employee "" then false
  else if bool_decide (employee ∈ Payout.EXCLUDED_EMPLOYEES) then false
  else true.

Definition filtered (rows : list (gmap string string)) : list Payout.ShiftRecord :=
  map Payout.toShift (List.filter keepRow rows).

Definition toClientRow (r : Payout.OwedShift) : ClientRow :=
  {| employee := Payout.employee r;
     location := Payout.location r;
     amountOwed := Payout.amount_owed r |}.

Definition clientRows (parsed : list (list (string * jsval))) : list ClientRow :=
  map toClientRow
    (Payout.source (Payout.withBonus (filtered (map normalizeRowKeys parsed)))).

Section Handler.
Variable localeCompare : string -> string -> Z.

Definition allLocations (rows : list ClientRow) : list string :=
  sortBy localeCompare (distinct (map location rows)).

Definition POST (parsed : list (list (string * jsval))) : Page :=
  let rows := clientRows parsed in
  {| report := Payout.aggregate localeCompare employee amountOwed rows;
     dataRows := rows;
     dataLocations := allLocations rows |}.
End Handler.

End Locations.

(** ** The reconciliation engine (crossref/route.ts) *)

Module Crossref.

Definition KEY_COLUMNS : list string := ["employee"; "date"; "location"].

Definition IGNORED_EMPLOYEES : gset string :=
  list_to_set (map Js.toLowerCase
    ["Luke Whelan"; "Tony"; "Arod"; "Danny M"; "Aquib"; "Nick C"; "Andy";
     "Troy"; "Rony"; "Alexander M Kiwowicz"; "Michael C"; "Jay"; "Dave";
     "Nick T"]).

Definition IGNORED_LOCATIONS : gset string :=
  list_to_set (map Js.toLowerCase
    ["Blu on the Hudson"; "Ruth's Chris"; "Haven"; "Chart House";
     "Fleming's Edgewater"]).

Definition SCHEDULED_START_CANDIDATES : list string :=
  ["start_time"; "start time"; "start"; "scheduled_start"; "scheduled start";
   "shift start"].

Definition SCHEDULED_END_CANDIDATES : list string :=
  ["end_time"; "end time"; "end"; "scheduled_end"; "scheduled end"; "shift end"].

(** [r[k]] is a string, or [undefined] ([None]) when the column is absent. *)
Definition truthy (v : option string) : bool :=
  match v with
  | Some s => negb (String.eqb s "")
  | None => false
  end.

(** A value interpolated into a template literal. *)
Definition interpolate (v : option string) : string := default "undefined" v.

(** [for (const cand of candidates) if (cand in row) return cand] *)
Definition findFirstExistingColumn (row : gmap string string)
    (candidates : list string) : option string :=
  List.find (hasProperty row) candidates.

Definition keyOf (r : gmap string string) : string :=
  interpolate (r !! "employee") ++ "||" ++ interpolate (r !! "date")
    ++ "||" ++ interpolate (r !! "location").

(** [!v || !ignored.has(v.toLowerCase())] *)
Definition notIgnored (ignored : gset string) (v : option string) : bool :=
  negb (truthy v)
  || negb (bool_decide (Js.toLowerCase (default "" v) ∈ ignored)).

Definition keepRow (r : gmap string string) : bool :=
  notIgnored IGNORED_EMPLOYEES (r !! "employee")
  && notIgnored IGNORED_LOCATIONS (r !! "location").

(** [KEY_COLUMNS.every(k => r[k])] *)
Definition hasKeyColumns (r : gmap string string) : bool :=
  forallb (fun k => truthy (r !! k)) KEY_COLUMNS.

(** Set of unique worked shifts *)
Definition workedSet (filteredTimesheets : list (gmap string string)) : gset string :=
  list_to_set (map keyOf (List.filter hasKeyColumns filteredTimesheets)).

(** The object pushed for a missed shift: [date], [location] and, when both
    columns were detected, [start] and [end]. *)
Record Entry : Type := mkEntry {
  date : option string;
  location : option string;
  startEnd : option (option string * option string)
}.

Definition makeEntry (startCol endCol : option string) (r : gmap string string)
  : Entry :=
  {| date := r !! "date";
     location := r !! "location";
     startEnd :=
       match startCol, endCol with
       | Some sc, Some ec =>
           if truthy startCol && truthy endCol then Some (r !! sc, r !! ec)
           else None
       | _, _ => None
       end |}.

Record Missed : Type := mkMissed {
  missedCount : nat;
  missedByEmployee : list (string * list Entry)
}.

(** One turn of the loop over the filtered scheduled rows.  The employee is
    read after the [every] test, so it is a non-empty string there. *)
Definition visit (worked : gset string) (startCol endCol : option string)
    (st : Missed) (r : gmap string string) : Missed :=
  if negb (hasKeyColumns r) then st
  else if negb (bool_decide (keyOf r ∈ worked)) then
    match r !! "employee" with
    | Some emp =>
        let list := default [] (JsMap.get emp (missedByEmployee st)) in
        {| missedCount := missedCount st + 1;
           missedByEmployee :=
             JsMap.set emp (list ++ [makeEntry startCol endCol r])%list
                       (missedByEmployee st) |}
    | None => st
    end
  else st.

Definition probe (candidates : list string)
    (filteredScheduled : list (gmap string string)) : option string :=
  match filteredScheduled with
  | first :: _ => findFirstExistingColumn first candidates
  | [] => None
  end.

Definition reconcile (scheduledParsed timesheetsParsed : list (list (string * jsval)))
  : Missed :=
  let scheduledRows := map normalizeRowKeys scheduledParsed in
  let timesheetRows := map normalizeRowKeys timesheetsParsed in
  let filteredScheduled := List.filter keepRow scheduledRows in
  let filteredTimesheets := List.filter keepRow timesheetRows in
  let startCol := probe SCHEDULED_START_CANDIDATES filteredScheduled in
  let endCol := probe SCHEDULED_END_CANDIDATES filteredScheduled in
  let worked := workedSet filteredTimesheets in
  fold_left (visit worked startCol endCol) filteredScheduled
    {| missedCount := 0; missedByEmployee := [] |}.

(** The response: either the page saying that every shift has a timesheet
    entry, or the report with its count, the number of employees and one table
    row per missed shift, employee by employee. *)
Inductive Response : Type :=
| AllMatched
| MissedShifts (total : nat) (employees : nat) (rows : list (string * Entry)).

Section Handler.
Variable localeCompare : string -> string -> Z.

Definition tableRows (m : list (string * list Entry)) : list (string * Entry) :=
  let employees := sortBy localeCompare (JsMap.keys m) in
  concat (map (fun emp => map (pair emp) (default [] (JsMap.get emp m)))
              employees).

Definition POST (scheduledParsed timesheetsParsed : list (list (string * jsval)))
  : Response :=
  let st := reconcile scheduledParsed timesheetsParsed in
  if (missedCount st =? 0)%nat then AllMatched
  else
    MissedShifts (missedCount st)
      (length (sortBy localeCompare (JsMap.keys (missedByEmployee st))))
      (tableRows (missedByEmployee st)).
End Handler.

End Crossref.

(** ** The payout handlers over binary64 numbers

    The numbers of the source are IEEE-754 doubles: [+], [-] and [/] round to
    the nearest double, ties to even, and overflow to an infinity. Here the
    currency parser and the payout handlers are written once more over
    [PrimFloat.float], whose primitive operations are those of binary64. The
    text is the text of [Js.parseFloat], [cleanCurrency], [Payout],
    [Calculate] and [Locations]; only the numbers differ. *)

Module Binary64.

Definition number : Set := PrimFloat.float.

(** The double nearest to [m * 10^e], ties to even, for [0 <= m], whatever
    the number of digits of [m]: an integer is rounded as it is, and a
    fraction is the correctly rounded quotient of two integers. Values from
    [2^1024 - 2^970] on round to infinity, values up to [2^-1075] to 0. *)
Definition roundDecimal (m e : Z) : SpecFloat.spec_float :=
  if (0 <=? e)%Z then
    SpecFloat.binary_normalize FloatOps.prec FloatOps.emax (m * 10 ^ e) 0 false
  else
    match m with
    | Zpos p =>
        SpecFloat.SFdiv FloatOps.prec FloatOps.emax
          (SpecFloat.S754_finite false p 0)
          (SpecFloat.S754_finite false (Z.to_pos (10 ^ (- e))) 0)
    | _ => SpecFloat.S754_zero false
    end.

Definition ofDecimal (negative : bool) (m e : Z) : number :=
  let x := FloatOps.SF2Prim (roundDecimal m e) in
  if negative then (- x)%float else x.

(** A count as a number. Counts and lengths are kept as natural numbers;
    below [2^53] each is a double of its own, and [+ 1] on it is exact. *)
Definition ofNat (n : nat) : number :=
  FloatOps.SF2Prim
    (SpecFloat.binary_normalize FloatOps.prec FloatOps.emax (Z.of_nat n) 0 false).

(** [parseFloat], with the grammar of [Js.parseFloat]. *)
Definition parseFloat (input : string) : number :=
  let s := Js.trimStart input in
  let '(negative, s1) :=
    match s with
    | String "-" r => (true, r)
    | String "+" r => (false, r)
    | _ => (false, s)
    end in
  if Js.startsWith "Infinity" s1 then
    if negative then PrimFloat.neg_infinity else PrimFloat.infinity
  else
    let '(ip, s2) := Js.spanDigits s1 in
    let '(fp, s3) :=
      match s2 with
      | String "." r => Js.spanDigits r
      | _ => ([], s2)
      end in
    match ip, fp with
    | [], [] => PrimFloat.nan
    | _, _ =>
        ofDecimal negative (Js.digitsValue (ip ++ fp))
                  (Js.exponentPart s3 - Z.of_nat (length fp))
    end.

Inductive currency : Type :=
| CString (s : string)
| CNumber (n : number).

Definition cleanCurrency (value : currency) : number :=
  match value with
  | CNumber n => n
  | CString s =>
      let cleaned := Js.removeAll currencyNoise s in
      let n := parseFloat cleaned in
      if PrimFloat.is_finite n then n else 0%float
  end.

Record ShiftRecord : Type := mkShift {
  employee : string;
  location : string;
  tips : number;
  cost : number
}.

Record BonusRow : Type := mkBonus {
  shiftOf :> ShiftRecord;
  bonus : number
}.

Record OwedShift : Type := mkOwed {
  bonusRowOf :> BonusRow;
  amount_owed : number
}.

Record Agg : Type := mkAgg { total : number; count : nat }.

Record Summary : Type := mkSummary {
  Employee : string;
  TotalAmountOwed : number;
  ShiftsThatWereOwed : nat;
  AverageOwedPerShift : number
}.

Record Report : Type := mkReport {
  summaryRows : list Summary;
  totalAmount : number;
  totalShifts : nat;
  totalAvg : number
}.

(** [cleanCurrency(r[name] ?? 0)] *)
Definition money (r : gmap string string) (name : string) : number :=
  cleanCurrency
    (match r !! name with Some s => CString s | None => CNumber 0%float end).

Definition toShift (r : gmap string string) : ShiftRecord :=
  {| employee := Payout.field r "employee";
     location := Payout.field r "location";
     tips := money r "tips";
     cost := money r "cost" |}.

(** Step 2: bonus *)
Definition addBonus (row : ShiftRecord) : BonusRow :=
  {| shiftOf := row;
     bonus := if String.eqb (location row) "Fleming's Condo"
                 && (tips row <? cost row)%float
              then 13.5%float else 0%float |}.

Definition withBonus (filtered : list ShiftRecord) : list BonusRow :=
  map addBonus filtered.

(** Step 3: source where cost > tips *)
Definition addOwed (r : BonusRow) : OwedShift :=
  {| bonusRowOf := r;
     amount_owed := (cost r - tips r + bonus r)%float |}.

Definition source (rows : list BonusRow) : list OwedShift :=
  map addOwed (List.filter (fun r : BonusRow => (tips r <? cost r)%float) rows).

(** Step 4: group by employee *)
Definition accumulate (m : list (string * Agg)) (emp : string) (amount : number)
  : list (string * Agg) :=
  let cur := default {| total := 0%float; count := 0 |} (JsMap.get emp m) in
  JsMap.set emp {| total := (total cur + amount)%float; count := count cur + 1 |} m.

Definition byEmployee {A : Type} (emp : A -> string) (amount : A -> number)
    (rows : list A) : list (string * Agg) :=
  fold_left (fun m r => accumulate m (emp r) (amount r)) rows [].

(** [n > 0 ? t / n : 0] *)
Definition average (t : number) (n : nat) : number :=
  if (0 <? n)%nat then (t / ofNat n)%float else 0%float.

Definition toSummary (e : string * Agg) : Summary :=
  {| Employee := e.1;
     TotalAmountOwed := total e.2;
     ShiftsThatWereOwed := count e.2;
     AverageOwedPerShift := average (total e.2) (count e.2) |}.

(** [rows.reduce((s, r) => s + amount(r), 0)] *)
Definition sumOf {A : Type} (amount : A -> number) (rows : list A) : number :=
  fold_left (fun s r => (s + amount r)%float) rows 0%float.

Section Engine.
Variable localeCompare : string -> string -> Z.

Definition sortSummaries (rows : list Summary) : list Summary :=
  sortBy (fun a b => localeCompare (Employee a) (Employee b)) rows.

(** Steps 4 to 6, from the owed rows on. *)
Definition aggregate {A : Type} (emp : A -> string) (amount : A -> number)
    (rows : list A) : Report :=
  let summary := sortSummaries (map toSummary (byEmployee emp amount rows)) in
  let totalAmount := sumOf amount rows in
  let totalShifts := length rows in
  {| summaryRows := summary;
     totalAmount := totalAmount;
     totalShifts := totalShifts;
     totalAvg := average totalAmount totalShifts |}.
End Engine.

(** Steps 1 to 3 under the row filter of a handler. *)
Definition owedRows (keepRow : gmap string string -> bool)
    (parsed : list (list (string * jsval))) : list OwedShift :=
  source (withBonus (map toShift (List.filter keepRow (map normalizeRowKeys parsed)))).

(** calculate/route.ts *)
Module Calculate.

Definition POST (localeCompare : string -> string -> Z)
    (parsed : list (list (string * jsval))) : Report :=
  aggregate localeCompare (fun r : OwedShift => employee r) amount_owed
    (owedRows (Payout.keepRow Calculate.EXCLUDED_LOCATIONS) parsed).

End Calculate.

(** unnamed/part_000: the snapshot rows and the report of the page. *)
Module Locations.

Record ClientRow : Type := mkClientRow {
  employee : string;
  location : string;
  amountOwed : number
}.

Definition toClientRow (r : OwedShift) : ClientRow :=
  {| employee := Binary64.employee r;
     location := Binary64.location r;
     amountOwed := amount_owed r |}.

Definition clientRows (parsed : list (list (string * jsval))) : list ClientRow :=
  map toClientRow (owedRows Locations.keepRow parsed).

Definition POST (localeCompare : string -> string -> Z)
    (parsed : list (list (string * jsval))) : Report :=
  aggregate localeCompare employee amountOwed (clientRows parsed).

End Locations.

End Binary64.

(** * Vocabulary of the statements *)

(** A string that is empty or starts with a visible character. *)
Definition cleanHead (s : string) : bool :=
  match s with
  | EmptyString => true
  | String c _ => negb (Js.isWhiteSpace c)
  end.

(** Sums of rationals, up to [==]. *)
Definition qsum (l : list Q) : Q := fold_right Qplus 0%Q l.

(** The rational carried by a finite number. *)
Definition valueOf (n : Js.number) : Q :=
  match n with Js.Finite q => q | _ => 0%Q end.

Module PayoutSpec.
Import Payout.

(** The owed rows, written as one pass over the normalized records: the test
    [cost > tips] and the row built from a record. *)
Definition owes (r : gmap string string) : bool :=
  Js.gt (money r "cost") (money r "tips").

Definition owedOf (r : gmap string string) : OwedShift :=
  addOwed (addBonus (toShift r)).

(** Sums over the groups of the [Map]. *)
Definition totalsOf (m : list (string * Agg)) : Q :=
  qsum (map (fun e => valueOf (total e.2)) m).

Definition countsOf (m : list (string * Agg)) : nat :=
  list_sum (map (fun e => count e.2) m).

Definition finiteTotals (m : list (string * Agg)) : Prop :=
  ∀ e, e ∈ m → Js.isFinite (total e.2) = true.

Definition amountsOf {A : Type} (amount : A → Js.number) (rows : list A) : Q :=
  qsum (map (fun r => valueOf (amount r)) rows).

(** Following the specification (4.3, per-location mode): the re-aggregation
    of the snapshot under a selection [S] of locations restricts the snapshot
    to the rows whose location is in [S] and repeats the grouping, the sort
    and the totals of the handler on them. *)
Definition reaggregate (localeCompare : string → string → Z) (S : gset string)
    (rows : list Locations.ClientRow) : Report :=
  aggregate localeCompare Locations.employee Locations.amountOwed
    (List.filter (fun r => bool_decide (Locations.location r ∈ S)) rows).

(** The summary rows add up to the overall totals. *)
Definition totalsConsistent (rep : Report) : Prop :=
  Js.eqb (sumOf TotalAmountOwed (summaryRows rep)) (totalAmount rep) = true
  ∧ list_sum (map ShiftsThatWereOwed (summaryRows rep)) = totalShifts rep.

End PayoutSpec.

Module CrossrefSpec.
Import Crossref.

(** A string without the character of the key separator. *)
Fixpoint noBar (s : string) : bool :=
  match s with
  | EmptyString => true
  | String c s' => negb (Ascii.eqb c "|") && noBar s'
  end.

(** The key fields of a record, as they enter its key. *)
Definition keyFields (r : gmap string string) : string * string * string :=
  (interpolate (r !! "employee"), interpolate (r !! "date"),
   interpolate (r !! "location")).

Definition lowerFields (r : gmap string string) : string * string * string :=
  (Js.toLowerCase (interpolate (r !! "employee")),
   Js.toLowerCase (interpolate (r !! "date")),
   Js.toLowerCase (interpolate (r !! "location"))).

(** The test under which a scheduled row is reported. *)
Definition isMissed (worked : gset string) (r : gmap string string) : bool :=
  hasKeyColumns r && negb (bool_decide (keyOf r ∈ worked)).

(** The table row of a reported scheduled row. *)
Definition recordOf (startCol endCol : option string) (r : gmap string string)
  : string * Entry :=
  (interpolate (r !! "employee"), makeEntry startCol endCol r).

(** All entries of the groups, group by group. *)
Definition flatten (m : list (string * list Entry)) : list (string * Entry) :=
  flat_map (fun g => map (pair g.1) g.2) m.

End CrossrefSpec.

Module HtmlSpec.

(** What [escapeHtml] makes of one character. *)
Definition escapeChar (a : ascii) : string :=
  if Ascii.eqb a "&" then "&amp;"
  else if Ascii.eqb a "<" then "&lt;"
  else if Ascii.eqb a ">" then "&gt;"
  else if Ascii.eqb a Html.dquote then "&quot;"
  else if Ascii.eqb a "'" then "&#39;"
  else String a EmptyString.

(** The characters that open or close markup or an attribute value. *)
Definition isMarkup (a : ascii) : bool :=
  Ascii.eqb a "<" || Ascii.eqb a ">" || Ascii.eqb a Html.dquote || Ascii.eqb a "'".

Fixpoint anyChar (p : ascii → bool) (s : string) : bool :=
  match s with
  | EmptyString => false
  | String a s' => p a || anyChar p s'
  end.

(** The decoder of the five entities, reading left to right. *)
Fixpoint unescapeHtml (s : string) : string :=
  match s with
  | String "&" (String "a" (String "m" (String "p" (String ";" r)))) =>
      String "&" (unescapeHtml r)
  | String "&" (String "l" (String "t" (String ";" r))) =>
      String "<" (unescapeHtml r)
  | String "&" (String "g" (String "t" (String ";" r))) =>
      String ">" (unescapeHtml r)
  | String "&" (String "q" (String "u" (String "o" (String "t" (String ";" r))))) =>
      String Html.dquote (unescapeHtml r)
  | String "&" (String "#" (String "3" (String "9" (String ";" r)))) =>
      String "'" (unescapeHtml r)
  | String a s' => String a (unescapeHtml s')
  | EmptyString => EmptyString
  end.

End HtmlSpec.

Module CurrencySpec.

(** A text that starts with a sign. *)
Definition startsWithSign (s : string) : bool :=
  match s with
  | String c _ => Ascii.eqb c "-" || Ascii.eqb c "+"
  | EmptyString => false
  end.

(** What [parseFloat] does once the leading white space and the sign are
    read. *)
Definition parseUnsigned (negative : bool) (s1 : string) : Js.number :=
  if Js.startsWith "Infinity" s1 then Js.Infinity negative
  else
    let '(ip, s2) := Js.spanDigits s1 in
    let '(fp, s3) :=
      match s2 with
      | String "." r => Js.spanDigits r
      | _ => ([], s2)
      end in
    match ip, fp with
    | [], [] => Js.NaN
    | _, _ =>
        Js.ofDecimal negative (Js.digitsValue (ip ++ fp))
                     (Js.exponentPart s3 - Z.of_nat (length fp))
    end.

(** [Number.isFinite(n) ? n : 0] *)
Definition finiteOrZero (n : Js.number) : Js.number :=
  if Js.isFinite n then n else Js.Finite 0.

End CurrencySpec.

Module SortSpec.

(** Each element is at most its successor for the comparator. *)
Fixpoint sortedBy {A : Type} (compare : A → A → Z) (l : list A) : Prop :=
  match l with
  | x :: (y :: _) as l' => (compare x y <= 0)%Z ∧ sortedBy compare l'
  | _ => True
  end.

(** The rows of one employee, in their order. *)
Definition rowsOf {A : Type} (emp : A → string) (k : string) (rows : list A)
  : list A :=
  List.filter (fun r => String.eqb (emp r) k) rows.

(** What the [Map] of the grouping holds for the employee [k] after the rows
    [rows]: nothing when [k] has no row, else the number of its rows and the
    sum of their amounts. *)
Definition groupOk {A : Type} (emp : A → string) (amount : A → Js.number)
    (m : list (string * Payout.Agg)) (rows : list A) (k : string) : Prop :=
  match JsMap.get k m with
  | None => rowsOf emp k rows = []
  | Some a =>
      Payout.count a = length (rowsOf emp k rows)
      ∧ (1 ≤ Payout.count a)%nat
      ∧ ∃ t, Payout.total a = Js.Finite t
             ∧ (t == PayoutSpec.amountsOf amount (rowsOf emp k rows))%Q
  end.

End SortSpec.

Module Binary64Spec.
Import Binary64.

(** The sum of a list of numbers, added one after the other from 0 in the
    order of the list. *)
Definition sum (l : list number) : number :=
  fold_left PrimFloat.add l 0%float.

(** The owed rows as one pass over the normalized records: the test
    [cost > tips] and the row built from a record. *)
Definition owes (r : gmap string string) : bool :=
  (money r "tips" <? money r "cost")%float.

Definition owedOf (r : gmap string string) : OwedShift :=
  addOwed (addBonus (toShift r)).

(** The included rows of a file under the row filter of a handler. *)
Definition included (keepRow : gmap string string → bool)
    (parsed : list (list (string * jsval))) : list OwedShift :=
  map owedOf (List.filter (fun r => keepRow r && owes r)
                          (map normalizeRowKeys parsed)).

(** What the [Map] of the grouping holds for the employee [k] after the rows
    [rows]: nothing when [k] has no row, else the number of its rows and the
    sum of their amounts in the order of the file. *)
Definition groupOk {A : Type} (emp : A → string) (amount : A → number)
    (m : list (string * Agg)) (rows : list A) (k : string) : Prop :=
  match JsMap.get k m with
  | None => SortSpec.rowsOf emp k rows = []
  | Some a =>
      SortSpec.rowsOf emp k rows ≠ []
      ∧ count a = length (SortSpec.rowsOf emp k rows)
      ∧ total a = sum (map amount (SortSpec.rowsOf emp k rows))
  end.

(** [rep] is the report of the rows [rows].
    - Counts: the shift counts of the summary rows add up to the overall
      number of shifts, which is the number of rows.
    - Overall amount and average: the sum of the amounts of all rows in the
      order of the file, and that sum divided by the number of rows (0 when
      there is none).
    - Summary rows: one per employee with a row; its count is the number of
      that employee's rows and its total is the sum of their amounts in the
      order of the file. *)
Definition reportOf {A : Type} (emp : A → string) (amount : A → number)
    (rows : list A) (rep : Report) : Prop :=
  list_sum (map ShiftsThatWereOwed (summaryRows rep)) = totalShifts rep
  ∧ totalShifts rep = length rows
  ∧ totalAmount rep = sum (map amount rows)
  ∧ totalAvg rep
    = (if (length rows =? 0)%nat then 0%float
       else (sum (map amount rows) / ofNat (length rows))%float)
  ∧ NoDup (map Employee (summaryRows rep))
  ∧ (∀ r, r ∈ rows → emp r ∈ map Employee (summaryRows rep))
  ∧ (∀ row, row ∈ summaryRows rep →
       let mine := SortSpec.rowsOf emp (Employee row) rows in
       mine ≠ []
       ∧ ShiftsThatWereOwed row = length mine
       ∧ TotalAmountOwed row = sum (map amount mine)).

End Binary64Spec.

(** Sample files for concrete runs. *)
Module Examples.

Definition payrollRow (emp loc tips cost : string) : list (string * jsval) :=
  [("Employee", JString emp); ("Location", JString loc);
   ("Tips", JString tips); ("Cost", JString cost)].

Definition payroll : list (list (string * jsval)) :=
  [payrollRow "Bob" "Fleming's Condo" "$5" "20";
   payrollRow "Al" "Main St" "1" "3"].


Definition bobSummary : Payout.Summary :=
  {| Payout.Employee := "Bob";
     Payout.TotalAmountOwed := Js.Finite 28.5;
     Payout.ShiftsThatWereOwed := 1;
     Payout.AverageOwedPerShift := Js.Finite 28.5 |}.

(** Three shifts of two employees, with amounts in dollars and cents. *)
Definition centsPayroll : list (list (string * jsval)) :=
  [payrollRow "Ann" "Main St" "$3.00" "$29.70";
   payrollRow "Bob" "Main St" "$3.00" "$18.50";
   payrollRow "Ann" "Main St" "$3.00" "$35.10"].

(** An excluded employee, and a shift whose tips cover its cost. *)
Definition unusablePayroll : list (list (string * jsval)) :=
  [payrollRow "Troy" "Main St" "1" "30"; payrollRow "Al" "Main St" "7" "7"].

Definition shiftRow (emp date loc : string) : list (string * jsval) :=
  [("Employee", JString emp); ("Date", JString date); ("Location", JString loc)].

Definition scheduled : list (list (string * jsval)) :=
  [shiftRow "Alice" "2024-01-01" "X"; shiftRow "Bea" "2024-01-01" "X"].

Definition timesheets : list (list (string * jsval)) :=
  [shiftRow "Bea" "2024-01-01" "X"].

Definition aliceEntry : Crossref.Entry :=
  {| Crossref.date := Some "2024-01-01"; Crossref.location := Some "X";
     Crossref.startEnd := None |}.

End Examples.

(** * Properties *)

(** ** Strings *)

Module JsFacts.
Import Js.

Ltac by_cases_on_char c :=
  destruct c as [[] [] [] [] [] [] [] []]; vm_compute; reflexivity.

Lemma lowerChar_idem (c : ascii) : lowerChar (lowerChar c) = lowerChar c.
Proof. by_cases_on_char c. Qed.

Lemma isWhiteSpace_lowerChar (c : ascii) :
  isWhiteSpace (lowerChar c) = isWhiteSpace c.
Proof. by_cases_on_char c. Qed.

Lemma toLowerCase_idem (s : string) : toLowerCase (toLowerCase s) = toLowerCase s.
Proof.
  induction s as [|c s IH]; simpl; [reflexivity|].
  now rewrite lowerChar_idem, IH.
Qed.

Lemma toLowerCase_length (s : string) :
  String.length (toLowerCase s) = String.length s.
Proof. induction s as [|c s IH]; simpl; congruence. Qed.

Lemma toLowerCase_trimStart (s : string) :
  toLowerCase (trimStart s) = trimStart (toLowerCase s).
Proof.
  induction s as [|c s IH]; simpl; [reflexivity|].
  rewrite isWhiteSpace_lowerChar. now destruct (isWhiteSpace c).
Qed.

Lemma toLowerCase_trimEnd (s : string) :
  toLowerCase (trimEnd s) = trimEnd (toLowerCase s).
Proof.
  induction s as [|c s IH]; simpl; [reflexivity|].
  rewrite <- IH, isWhiteSpace_lowerChar.
  destruct (trimEnd s); simpl; [now destruct (isWhiteSpace c)|reflexivity].
Qed.

Lemma toLowerCase_trim (s : string) : toLowerCase (trim s) = trim (toLowerCase s).
Proof. unfold trim. now rewrite toLowerCase_trimEnd, toLowerCase_trimStart. Qed.


Lemma cleanHead_trimStart (s : string) : cleanHead (trimStart s) = true.
Proof.
  induction s as [|c s IH]; simpl; [reflexivity|].
  destruct (isWhiteSpace c) eqn:E; [exact IH|]. simpl. now rewrite E.
Qed.

Lemma trimStart_cleanHead (s : string) : cleanHead s = true -> trimStart s = s.
Proof.
  destruct s as [|c s]; simpl; [reflexivity|].
  now destruct (isWhiteSpace c).
Qed.

Lemma cleanHead_trimEnd (s : string) :
  cleanHead s = true -> cleanHead (trimEnd s) = true.
Proof.
  destruct s as [|c s]; simpl; [reflexivity|].
  destruct (isWhiteSpace c) eqn:W; [discriminate|]. intros _.
  destruct (trimEnd s); simpl; now rewrite W.
Qed.

Lemma trimEnd_idem (s : string) : trimEnd (trimEnd s) = trimEnd s.
Proof.
  induction s as [|c s IH]; simpl; [reflexivity|].
  destruct (trimEnd s) as [|d t] eqn:E.
  - destruct (isWhiteSpace c) eqn:W; simpl; [reflexivity|]. now rewrite W.
  - change (trimEnd (String c (String d t))) with
      (match trimEnd (String d t) with
       | EmptyString => if isWhiteSpace c then EmptyString else String c EmptyString
       | x => String c x
       end).
    now rewrite IH.
Qed.

Lemma trim_idem (s : string) : trim (trim s) = trim s.
Proof.
  unfold trim.
  rewrite (trimStart_cleanHead (trimEnd (trimStart s))).
  - apply trimEnd_idem.
  - apply cleanHead_trimEnd, cleanHead_trimStart.
Qed.

End JsFacts.

Lemma normalizeKey_idem (k : string) : normalizeKey (normalizeKey k) = normalizeKey k.
Proof.
  unfold normalizeKey.
  now rewrite <- (JsFacts.toLowerCase_trim (Js.trim k)),
    JsFacts.toLowerCase_idem, JsFacts.trim_idem.
Qed.

Lemma normalizeValue_idem (v : jsval) :
  normalizeValue (JString (normalizeValue v)) = normalizeValue v.
Proof. unfold normalizeValue. simpl. apply JsFacts.trim_idem. Qed.

(** ** The Normalizer *)

Section NormalizerFacts.

Lemma normalizeStep_lookup (out : gmap string string) (kv : string * jsval)
    (i : string) :
  normalizeStep out kv !! i
  = if bool_decide (normalizeKey kv.1 = i ∧ i ≠ "__proto__")
    then Some (normalizeValue kv.2) else out !! i.
Proof.
  unfold normalizeStep. cbv zeta.
  destruct (String.eqb_spec (normalizeKey kv.1) "__proto__") as [Hp|Hp].
  - rewrite bool_decide_eq_false_2; [reflexivity|]. intros [<- H]. now apply H.
  - destruct (decide (normalizeKey kv.1 = i)) as [<-|Hne].
    + rewrite bool_decide_eq_true_2 by now split. apply lookup_insert_eq.
    + rewrite bool_decide_eq_false_2 by (intros [H _]; now apply Hne).
      now apply lookup_insert_ne.
Qed.

Lemma normalize_fold_untouched (l : list (string * jsval))
    (acc : gmap string string) (i : string) :
  (∀ kv, kv ∈ l → normalizeKey kv.1 ≠ i) →
  fold_left normalizeStep l acc !! i = acc !! i.
Proof.
  revert acc. induction l as [|kv l IH]; intros acc H; simpl; [reflexivity|].
  rewrite IH.
  - rewrite normalizeStep_lookup. rewrite bool_decide_eq_false_2; [reflexivity|].
    intros [Heq _]. revert Heq. apply H. left.
  - intros kv' Hin. apply H. now right.
Qed.

Lemma normalize_fold_origin (l : list (string * jsval))
    (acc : gmap string string) (i x : string) :
  fold_left normalizeStep l acc !! i = Some x →
  acc !! i = Some x
  ∨ ∃ kv, kv ∈ l ∧ i = normalizeKey kv.1 ∧ x = normalizeValue kv.2.
Proof.
  revert acc. induction l as [|kv l IH]; intros acc H; simpl in H; [now left|].
  destruct (IH _ H) as [Hacc | (kv' & Hin & Hk & Hv)].
  - rewrite normalizeStep_lookup in Hacc.
    destruct (bool_decide_reflect (normalizeKey kv.1 = i ∧ i ≠ "__proto__"))
      as [[<- _]|_].
    + injection Hacc as <-. right. exists kv. split; [left|]. now split.
    + now left.
  - right. exists kv'. split; [now right|]. now split.
Qed.

(** No column is stored under the name [__proto__]. *)
Lemma normalize_fold_proto (l : list (string * jsval)) (acc : gmap string string) :
  fold_left normalizeStep l acc !! "__proto__" = acc !! "__proto__".
Proof.
  revert acc. induction l as [|kv l IH]; intros acc; simpl; [reflexivity|].
  rewrite IH, normalizeStep_lookup.
  rewrite bool_decide_eq_false_2; [reflexivity|]. intros [_ H]. now apply H.
Qed.

Lemma normalized_not_proto (raw : list (string * jsval)) :
  normalizeRowKeys raw !! "__proto__" = None.
Proof. unfold normalizeRowKeys. now rewrite normalize_fold_proto. Qed.

(** The field whose normalized name is not taken again later is the one
    read back, unless that name is [__proto__]. *)
Lemma normalize_last_wins (l1 l2 : list (string * jsval)) (k : string) (v : jsval) :
  normalizeKey k ≠ "__proto__" →
  (∀ kv, kv ∈ l2 → normalizeKey kv.1 ≠ normalizeKey k) →
  normalizeRowKeys (l1 ++ (k, v) :: l2) !! normalizeKey k
  = Some (normalizeValue v).
Proof.
  intros Hp H. unfold normalizeRowKeys. rewrite fold_left_app. simpl.
  change (fold_left normalizeStep l2 (normalizeStep (fold_left normalizeStep l1 ∅) (k, v)) !! normalizeKey k
          = Some (normalizeValue v)).
  rewrite normalize_fold_untouched by exact H.
  rewrite normalizeStep_lookup. simpl.
  now rewrite bool_decide_eq_true_2 by now split.
Qed.

Lemma normalize_origin (raw : list (string * jsval)) (i x : string) :
  normalizeRowKeys raw !! i = Some x →
  ∃ kv, kv ∈ raw ∧ i = normalizeKey kv.1 ∧ x = normalizeValue kv.2.
Proof.
  intros H. destruct (normalize_fold_origin raw ∅ i x H) as [He|He]; [|exact He].
  now rewrite lookup_empty in He.
Qed.

(** Names and values of a normalized record are in normal form. *)
Lemma normalized_name (raw : list (string * jsval)) (i x : string) :
  normalizeRowKeys raw !! i = Some x → normalizeKey i = i.
Proof.
  intros H. destruct (normalize_origin _ _ _ H) as (kv & _ & -> & _).
  apply normalizeKey_idem.
Qed.

Lemma normalized_value (raw : list (string * jsval)) (i x : string) :
  normalizeRowKeys raw !! i = Some x → Js.trim x = x.
Proof.
  intros H. destruct (normalize_origin _ _ _ H) as (kv & _ & _ & ->).
  apply JsFacts.trim_idem.
Qed.

(** Normalizing the entries of a record whose names and values are already
    in normal form, and which has no column [__proto__], gives the record
    back. *)
Lemma normalize_entries_fixed (m : gmap string string) :
  m !! "__proto__" = None →
  (∀ i x, m !! i = Some x → normalizeKey i = i ∧ Js.trim x = x) →
  normalizeRowKeys (entries m) = m.
Proof.
  intros Hproto Hm. apply map_eq. intros i.
  destruct (m !! i) as [x|] eqn:E.
  - apply elem_of_map_to_list in E as Hin.
    apply list_elem_of_split in Hin as (l1 & l2 & Hsplit).
    pose proof (NoDup_fst_map_to_list m) as Hnd.
    unfold entries. rewrite Hsplit, map_app. simpl.
    destruct (Hm i x E) as [Hi Hx].
    pose proof (normalize_last_wins
                  (map (fun kv => (kv.1, JString kv.2)) l1)
                  (map (fun kv => (kv.1, JString kv.2)) l2)
                  i (JString x)) as Hlast.
    rewrite Hi in Hlast. rewrite Hlast.
    + unfold normalizeValue. simpl. now rewrite Hx.
    + intros ->. congruence.
    + intros kv Hkv.
      apply list_elem_of_fmap in Hkv as ([k' v'] & -> & Hin'). simpl.
      assert (Hk' : (k', v') ∈ map_to_list m)
        by (rewrite Hsplit; apply elem_of_app; right; now right).
      apply elem_of_map_to_list in Hk'.
      destruct (Hm k' v' Hk') as [-> _].
      intros ->.
      rewrite Hsplit, fmap_app, fmap_cons in Hnd. simpl in Hnd.
      apply NoDup_app in Hnd as (_ & _ & Hnd).
      apply NoDup_cons in Hnd as [Hnot _].
      apply Hnot. apply list_elem_of_fmap. now exists (i, v').
  - destruct (normalizeRowKeys (entries m) !! i) as [y|] eqn:E'; [|reflexivity].
    exfalso.
    destruct (normalize_origin _ _ _ E') as (kv & Hin & Hk & _).
    unfold entries in Hin.
    apply list_elem_of_fmap in Hin as ([k' v'] & -> & Hin). simpl in Hk.
    apply elem_of_map_to_list in Hin.
    destruct (Hm k' v' Hin) as [Hfix _].
    rewrite Hfix in Hk. subst k'. congruence.
Qed.

End NormalizerFacts.

(** C9. The Normalizer is idempotent: the entries of a normalized record
    normalize to that same record. *)
Theorem normalizeRowKeys_idempotent (raw : list (string * jsval)) :
  normalizeRowKeys (entries (normalizeRowKeys raw)) = normalizeRowKeys raw.
Proof.
  apply normalize_entries_fixed; [apply normalized_not_proto|].
  intros i x H. split.
  - exact (normalized_name raw i x H).
  - exact (normalized_value raw i x H).
Qed.

(** C7, as stated, fails. Two column names that coincide after trimming and
    lower-casing share one slot of the output, and the later one overwrites the
    earlier: the value ["x"] of the column ["Name"] is not in the result. *)
Lemma normalizeRowKeys_collision_drops_field :
  let raw := [("Name", JString "x"); ("name", JString "y")] in
  ("Name", JString "x") ∈ raw
  ∧ normalizeKey "Name" = "name"
  ∧ normalizeValue (JString "x") = "x"
  ∧ normalizeRowKeys raw = {["name" := "y"]}
  ∧ normalizeRowKeys raw !! normalizeKey "Name" ≠ Some (normalizeValue (JString "x")).
Proof.
  simpl. split; [left|]. repeat split; try (vm_compute; reflexivity).
  vm_compute. discriminate.
Qed.

(** A column whose name normalizes to [__proto__] is lost as well, whatever
    follows it: the assignment stores nothing. *)
Lemma normalizeRowKeys_drops_proto :
  let raw := [(" __PROTO__ ", JString "x"); ("a", JString "b")] in
  normalizeKey " __PROTO__ " = "__proto__"
  ∧ normalizeRowKeys raw = {["a" := "b"]}
  ∧ normalizeRowKeys raw !! normalizeKey " __PROTO__ " = None.
Proof. repeat split; vm_compute; reflexivity. Qed.

(** C7, amended. A field whose trimmed, lower-cased name is not [__proto__]
    and is not the name of a later field of the record appears in the output
    under that name with its trimmed string value, which is the empty string
    for an undefined, null or empty value. *)
Theorem normalizeRowKeys_keeps_last_field
    (raw : list (string * jsval)) (n : nat) (k : string) (v : jsval)
    (Hfield : raw !! n = Some (k, v))
    (Hname : Js.toLowerCase (Js.trim k) ≠ "__proto__")
    (Hlast : ∀ n' kv, n < n' → raw !! n' = Some kv →
                      normalizeKey kv.1 ≠ normalizeKey k) :
  normalizeRowKeys raw !! Js.toLowerCase (Js.trim k)
  = Some (Js.trim (valueString v))
  ∧ (v = JUndefined ∨ v = JNull ∨ v = JString "" →
     normalizeRowKeys raw !! Js.toLowerCase (Js.trim k) = Some "").
Proof.
  assert (Hlookup : normalizeRowKeys raw !! normalizeKey k = Some (normalizeValue v)).
  { pose proof (take_drop_middle raw n (k, v) Hfield) as Hsplit.
    rewrite <- Hsplit. apply normalize_last_wins; [exact Hname|].
    intros kv Hin. apply list_elem_of_lookup in Hin as (j & Hj).
    rewrite lookup_drop in Hj. apply (Hlast (S n + j) kv); [lia|exact Hj]. }
  split; [exact Hlookup|].
  intros [-> | [-> | ->]]; exact Hlookup.
Qed.

(** The theorem at the first field of a record with three: a null value
    under ["Tips"], followed by two columns of other names. *)
Lemma normalizeRowKeys_keeps_last_field_witness :
  normalizeRowKeys
    [(" Tips ", JNull); ("Employee", JString " Bob "); ("COST", JString "20")]
    !! Js.toLowerCase (Js.trim " Tips ")
  = Some (Js.trim (valueString JNull))
  ∧ (JNull = JUndefined ∨ JNull = JNull ∨ JNull = JString "" →
     normalizeRowKeys
       [(" Tips ", JNull); ("Employee", JString " Bob "); ("COST", JString "20")]
       !! Js.toLowerCase (Js.trim " Tips ") = Some "").
Proof.
  apply (normalizeRowKeys_keeps_last_field
           [(" Tips ", JNull); ("Employee", JString " Bob "); ("COST", JString "20")]
           0 " Tips " JNull).
  - reflexivity.
  - vm_compute. discriminate.
  - intros n' kv Hn Hkv.
    destruct n' as [|[|[|n']]]; [lia| | |discriminate];
      injection Hkv as <-; vm_compute; discriminate.
Defined.

(** ** The currency parser *)

Lemma cleanCurrency_string_finite (s : string) :
  Js.isFinite (cleanCurrency (CString s)) = true.
Proof.
  simpl. destruct (Js.isFinite (Js.parseFloat _)) eqn:E; [exact E|reflexivity].
Qed.

(** C8, as stated, fails. A numeric input is returned as it is, and [NaN] is a
    number. *)
Lemma cleanCurrency_passes_NaN : cleanCurrency (CNumber Js.NaN) = Js.NaN.
Proof. reflexivity. Qed.

(** C8, amended. A number is returned as it is. From a string the characters
    [$], [,] and white space are deleted and the rest is read by [parseFloat],
    which takes the longest numeric prefix; a result that is not finite is
    replaced by 0. The function is total, and its result is [NaN] only for the
    numeric input [NaN]. The five sample values are as the specification lists
    them. *)
Theorem cleanCurrency_spec (value : currency) :
  cleanCurrency value
  = match value with
    | CNumber n => n
    | CString s =>
        let n := Js.parseFloat (Js.removeAll currencyNoise s) in
        if Js.isFinite n then n else Js.Finite 0
    end
  ∧ Js.isNaN (cleanCurrency value)
    = match value with CNumber n => Js.isNaN n | CString _ => false end
  ∧ cleanCurrency (CString "$1,234.56") = Js.Finite 1234.56
  ∧ cleanCurrency (CString "") = Js.Finite 0
  ∧ cleanCurrency (CString "abc") = Js.Finite 0
  ∧ cleanCurrency (CNumber (Js.Finite 42)) = Js.Finite 42
  ∧ cleanCurrency (CString "-$5") = Js.Finite (-5)
  ∧ cleanCurrency (CString "12abc") = Js.Finite 12.
Proof.
  split; [now destruct value|]. split.
  - destruct value as [s|n]; [|reflexivity].
    pose proof (cleanCurrency_string_finite s) as H.
    now destruct (cleanCurrency (CString s)).
  - repeat split; vm_compute; reflexivity.
Qed.

(** ** Sorting, maps and sums *)

Section SortFacts.
Context {A : Type} (compare : A -> A -> Z).

Lemma insertSorted_perm (x : A) (l : list A) :
  insertSorted compare x l ≡ₚ x :: l.
Proof.
  induction l as [|y l IH]; simpl; [reflexivity|].
  destruct (compare x y <=? 0)%Z; [reflexivity|].
  rewrite IH. apply perm_swap.
Qed.

Lemma sortBy_perm (l : list A) : sortBy compare l ≡ₚ l.
Proof.
  induction l as [|x l IH]; simpl; [reflexivity|].
  rewrite insertSorted_perm. now constructor.
Qed.

Lemma elem_of_sortBy (x : A) (l : list A) : x ∈ sortBy compare l ↔ x ∈ l.
Proof. now rewrite sortBy_perm. Qed.

Lemma length_sortBy (l : list A) : length (sortBy compare l) = length l.
Proof. now rewrite sortBy_perm. Qed.
End SortFacts.

Lemma filter_andb {A : Type} (p q : A → bool) (l : list A) :
  List.filter p (List.filter q l) = List.filter (fun x => q x && p x) l.
Proof.
  induction l as [|x l IH]; simpl; [reflexivity|].
  destruct (q x); simpl; [destruct (p x)|]; now rewrite IH.
Qed.

Lemma elem_of_distinct (x : string) (l : list string) : x ∈ distinct l ↔ x ∈ l.
Proof.
  unfold distinct.
  assert (H : ∀ acc, x ∈ fold_left
                (fun acc x => if bool_decide (x ∈ acc) then acc else (acc ++ [x])%list)
                l acc ↔ x ∈ acc ∨ x ∈ l).
  { induction l as [|y l IH]; intros acc; simpl.
    - split; [now left|]. intros [H|H]; [exact H|]. now apply elem_of_nil in H.
    - rewrite IH, elem_of_cons. case_bool_decide as Hy.
      + split; [intros [H|H]; auto|]. intros [H|[->|H]]; auto.
      + rewrite elem_of_app, list_elem_of_singleton. tauto. }
  rewrite H. rewrite elem_of_nil. tauto.
Qed.

Module JsMapFacts.
Section WithValue.
Context {V : Type}.
Implicit Types (m : list (string * V)) (k : string) (v : V).

Lemma get_Some_elem m k v : JsMap.get k m = Some v → (k, v) ∈ m.
Proof.
  induction m as [|[k' v'] m IH]; simpl; [discriminate|].
  destruct (String.eqb_spec k k') as [->|Hne].
  - intros [= ->]. left.
  - intros H. right. auto.
Qed.


Lemma keys_set m k v :
  ∀ k', k' ∈ JsMap.keys (JsMap.set k v m) ↔ k' = k ∨ k' ∈ JsMap.keys m.
Proof.
  unfold JsMap.keys. intros k'.
  induction m as [|[k0 v0] m IH]; simpl.
  - rewrite list_elem_of_singleton, elem_of_nil. tauto.
  - destruct (String.eqb_spec k k0) as [->|Hne]; simpl.
    + rewrite !elem_of_cons. tauto.
    + rewrite !elem_of_cons, IH. tauto.
Qed.

Lemma keys_set_NoDup m k v :
  NoDup (JsMap.keys m) → NoDup (JsMap.keys (JsMap.set k v m)).
Proof.
  induction m as [|[k0 v0] m IH]; simpl.
  - intros _. apply NoDup_singleton.
  - intros [Hnot Hnd]%NoDup_cons.
    destruct (String.eqb_spec k k0) as [->|Hne]; simpl.
    + now apply NoDup_cons.
    + apply NoDup_cons. split; [|now apply IH].
      fold (JsMap.keys (JsMap.set k v m)). rewrite keys_set.
      intros [->|H]; [now apply Hne|now apply Hnot].
Qed.

Lemma get_set_eq m k v : JsMap.get k (JsMap.set k v m) = Some v.
Proof.
  induction m as [|[k0 v0] m IH]; simpl.
  - now rewrite String.eqb_refl.
  - destruct (String.eqb_spec k k0) as [->|Hne]; simpl.
    + now rewrite String.eqb_refl.
    + destruct (String.eqb_spec k k0); [contradiction|exact IH].
Qed.

Lemma get_set_ne m k k' v : k' ≠ k → JsMap.get k' (JsMap.set k v m) = JsMap.get k' m.
Proof.
  intros Hne. induction m as [|[k0 v0] m IH]; simpl.
  - destruct (String.eqb_spec k' k); [contradiction|reflexivity].
  - destruct (String.eqb_spec k k0) as [->|Hne0]; simpl.
    + destruct (String.eqb_spec k' k0); [contradiction|reflexivity].
    + now rewrite IH.
Qed.
End WithValue.
End JsMapFacts.


Lemma qsum_app (l1 l2 : list Q) : (qsum (l1 ++ l2)%list == qsum l1 + qsum l2)%Q.
Proof. induction l1 as [|x l1 IH]; simpl; [lra|]. rewrite IH. lra. Qed.

Lemma qsum_perm (l1 l2 : list Q) : l1 ≡ₚ l2 → (qsum l1 == qsum l2)%Q.
Proof.
  induction 1 as [|x l1 l2 _ IH|x y l|l1 l2 l3 _ IH1 _ IH2]; simpl.
  - reflexivity.
  - now rewrite IH.
  - lra.
  - now rewrite IH1.
Qed.


Lemma add_finite (a b : Js.number) :
  Js.isFinite a = true → Js.isFinite b = true →
  Js.add a b = Js.Finite (valueOf a + valueOf b)%Q.
Proof. now destruct a, b. Qed.

Lemma neg_finite (a : Js.number) :
  Js.isFinite a = true → Js.neg a = Js.Finite (- valueOf a)%Q.
Proof. now destruct a. Qed.

(** ** The payout engine *)

Module PayoutFacts.
Import Payout PayoutSpec.

(** *** Owed rows *)

Lemma money_finite (r : gmap string string) (name : string) :
  Js.isFinite (money r name) = true.
Proof.
  unfold money. destruct (r !! name); [apply cleanCurrency_string_finite|reflexivity].
Qed.

Lemma bonus_finite (row : ShiftRecord) : Js.isFinite (bonus (addBonus row)) = true.
Proof. simpl. now destruct (_ && _). Qed.

Lemma amount_owed_finite (r : gmap string string) :
  Js.isFinite (amount_owed (addOwed (addBonus (toShift r)))) = true.
Proof.
  unfold addOwed, Js.sub. cbn [amount_owed bonusRowOf].
  change (cost (addBonus (toShift r))) with (money r "cost").
  change (tips (addBonus (toShift r))) with (money r "tips").
  rewrite (neg_finite _ (money_finite r "tips")).
  rewrite (add_finite (money r "cost")) by (apply money_finite || reflexivity).
  now rewrite add_finite by (reflexivity || apply bonus_finite).
Qed.


Lemma source_withBonus (rows : list ShiftRecord) :
  source (withBonus rows)
  = map (fun row => addOwed (addBonus row))
        (List.filter (fun row => Js.gt (cost row) (tips row)) rows).
Proof.
  unfold source, withBonus.
  induction rows as [|row rows IH]; simpl; [reflexivity|].
  destruct (Js.gt (cost row) (tips row)); simpl; now rewrite IH.
Qed.

Lemma owed_pipeline (keep : gmap string string → bool)
    (rows : list (gmap string string)) :
  source (withBonus (map toShift (List.filter keep rows)))
  = map owedOf (List.filter (fun r => keep r && owes r) rows).
Proof.
  rewrite source_withBonus.
  induction rows as [|r rows IH]; simpl; [reflexivity|].
  destruct (keep r); simpl; [|exact IH].
  unfold owes at 1. change (cost (toShift r)) with (money r "cost").
  change (tips (toShift r)) with (money r "tips").
  destruct (Js.gt (money r "cost") (money r "tips")); simpl; now rewrite IH.
Qed.

(** C2. The owed rows are the filtered rows with [cost > tips], in order; the
    bonus of a row is 13.5 when its location is Fleming's Condo and
    [cost > tips], and 0 otherwise; the amount owed is [cost - tips + bonus].
    With cost 20 and tips 5 that is 28.5 at Fleming's Condo and 15 elsewhere. *)
Theorem owed_shift_rule :
  (∀ filtered : list ShiftRecord,
     source (withBonus filtered)
     = map (fun row => addOwed (addBonus row))
           (List.filter (fun row => Js.gt (cost row) (tips row)) filtered))
  ∧ (∀ row : ShiftRecord,
       bonus (addBonus row)
       = if decide (location row = "Fleming's Condo"
                    ∧ Js.gt (cost row) (tips row) = true)
         then Js.Finite 13.5 else Js.Finite 0)
  ∧ (∀ r : BonusRow,
       amount_owed (addOwed r) = Js.add (Js.sub (cost r) (tips r)) (bonus r))
  ∧ (∀ emp : string,
       source (withBonus [mkShift emp "Fleming's Condo" (Js.Finite 5) (Js.Finite 20)])
       = [mkOwed (mkBonus (mkShift emp "Fleming's Condo" (Js.Finite 5) (Js.Finite 20))
                          (Js.Finite 13.5))
                 (Js.Finite 28.5)])
  ∧ (∀ emp : string,
       source (withBonus [mkShift emp "Elsewhere" (Js.Finite 5) (Js.Finite 20)])
       = [mkOwed (mkBonus (mkShift emp "Elsewhere" (Js.Finite 5) (Js.Finite 20))
                          (Js.Finite 0))
                 (Js.Finite 15)]).
Proof.
  split; [exact source_withBonus|]. split; [|split; [reflexivity|]].
  - intros row. unfold addBonus. cbn [bonus].
    destruct (String.eqb_spec (location row) "Fleming's Condo") as [He|He];
      destruct (Js.gt (cost row) (tips row)); simpl;
      case_decide as Hd; try reflexivity; try (exfalso; tauto);
      destruct Hd; (congruence || contradiction).
  - split; intros emp; vm_compute; reflexivity.
Qed.

(** *** Grouping *)


Lemma accumulate_cons (e : string * Agg) (m : list (string * Agg))
    (emp : string) (amount : Js.number) :
  emp ≠ e.1 → accumulate (e :: m) emp amount = e :: accumulate m emp amount.
Proof.
  intros Hne. destruct e as [k a]. unfold accumulate. simpl.
  destruct (String.eqb_spec emp k); [contradiction|reflexivity].
Qed.

Lemma accumulate_sums (m : list (string * Agg)) (emp : string) (amount : Js.number) :
  finiteTotals m → Js.isFinite amount = true →
  finiteTotals (accumulate m emp amount)
  ∧ (totalsOf (accumulate m emp amount) == totalsOf m + valueOf amount)%Q
  ∧ countsOf (accumulate m emp amount) = countsOf m + 1.
Proof.
  intros Hm Ha. destruct amount as [| |q]; try discriminate Ha.
  induction m as [|[k a] m IH].
  - unfold accumulate, totalsOf, countsOf, finiteTotals. simpl.
    repeat split; [|lra].
    intros e [->|H]%elem_of_cons; [reflexivity|now apply elem_of_nil in H].
  - assert (Hk : Js.isFinite (total a) = true) by (apply (Hm (k, a)); left).
    assert (Hm' : finiteTotals m) by (intros e He; apply Hm; now right).
    destruct (decide (emp = k)) as [->|Hne].
    + destruct a as [[| |t] c]; try discriminate Hk.
      unfold accumulate, totalsOf, countsOf. simpl. rewrite String.eqb_refl. simpl.
      repeat split; [|lra|lia].
      intros e [->|H]%elem_of_cons; [reflexivity|apply Hm; now right].
    + rewrite accumulate_cons by exact Hne.
      destruct (IH Hm') as (Hfin & Htot & Hcnt).
      repeat split.
      * intros e [->|H]%elem_of_cons; [exact Hk|now apply Hfin].
      * unfold totalsOf in *. simpl. rewrite Htot. simpl. lra.
      * unfold countsOf in *. simpl. rewrite Hcnt. lia.
Qed.

Section Grouping.
Context {A : Type} (emp : A → string) (amount : A → Js.number).


Lemma fold_accumulate_sums (rows : list A) (m : list (string * Agg)) :
  finiteTotals m →
  (∀ r, r ∈ rows → Js.isFinite (amount r) = true) →
  let m' := fold_left (fun m r => accumulate m (emp r) (amount r)) rows m in
  finiteTotals m'
  ∧ (totalsOf m' == totalsOf m + amountsOf amount rows)%Q
  ∧ countsOf m' = countsOf m + length rows.
Proof.
  revert m. induction rows as [|r rows IH]; intros m Hm Hrows; simpl.
  - unfold amountsOf. simpl. repeat split; [exact Hm|lra|lia].
  - destruct (accumulate_sums m (emp r) (amount r) Hm) as (Hfin & Htot & Hcnt);
      [apply Hrows; left|].
    destruct (IH _ Hfin) as (Hfin' & Htot' & Hcnt');
      [intros r' Hr'; apply Hrows; now right|].
    repeat split; [exact Hfin'| |].
    + rewrite Htot', Htot. unfold amountsOf. simpl. lra.
    + rewrite Hcnt', Hcnt. simpl. lia.
Qed.

Lemma byEmployee_sums (rows : list A) :
  (∀ r, r ∈ rows → Js.isFinite (amount r) = true) →
  finiteTotals (byEmployee emp amount rows)
  ∧ (totalsOf (byEmployee emp amount rows) == amountsOf amount rows)%Q
  ∧ countsOf (byEmployee emp amount rows) = length rows.
Proof.
  intros H.
  destruct (fold_accumulate_sums rows [] (fun e He => False_ind _ (not_elem_of_nil e He)) H)
    as (Hfin & Htot & Hcnt).
  repeat split; [exact Hfin| |exact Hcnt].
  rewrite Htot. unfold totalsOf. simpl. lra.
Qed.

Lemma sumOf_finite (rows : list A) :
  (∀ r, r ∈ rows → Js.isFinite (amount r) = true) →
  ∃ q, sumOf amount rows = Js.Finite q ∧ (q == amountsOf amount rows)%Q.
Proof.
  intros H. unfold sumOf.
  assert (G : ∀ a, ∃ q, fold_left (fun s r => Js.add s (amount r)) rows (Js.Finite a)
                        = Js.Finite q ∧ (q == a + amountsOf amount rows)%Q).
  { induction rows as [|r rows IH]; intros a.
    - exists a. split; [reflexivity|]. unfold amountsOf. simpl. lra.
    - cbn [fold_left].
      rewrite (add_finite (Js.Finite a) (amount r))
        by (reflexivity || apply H; left).
      destruct (IH (fun r' Hr' => H r' (list_elem_of_further _ _ _ Hr'))
                   (valueOf (Js.Finite a) + valueOf (amount r))%Q) as (q & Hq & Heq).
      exists q. split; [exact Hq|]. rewrite Heq. unfold amountsOf. simpl. lra. }
  destruct (G 0%Q) as (q & Hq & Heq). exists q. split; [exact Hq|].
  rewrite Heq. lra.
Qed.

Lemma byEmployee_keys (rows : list A) (k : string) :
  k ∈ JsMap.keys (byEmployee emp amount rows) → ∃ r, r ∈ rows ∧ emp r = k.
Proof.
  unfold byEmployee.
  assert (G : ∀ m, k ∈ JsMap.keys
                (fold_left (fun m r => accumulate m (emp r) (amount r)) rows m) →
              k ∈ JsMap.keys m ∨ ∃ r, r ∈ rows ∧ emp r = k).
  { induction rows as [|r rows IH]; intros m; simpl; [now left|].
    intros [Hk|(r' & Hr' & He)]%IH.
    - unfold accumulate in Hk. apply JsMapFacts.keys_set in Hk as [->|Hk]; [|now left].
      right. exists r. split; [left|reflexivity].
    - right. exists r'. split; [now right|exact He]. }
  intros [Hk|Hk]%G; [now apply elem_of_nil in Hk|exact Hk].
Qed.
End Grouping.

Lemma list_sum_perm (l1 l2 : list nat) : l1 ≡ₚ l2 → list_sum l1 = list_sum l2.
Proof.
  induction 1 as [|x l1 l2 _ IH|x y l|l1 l2 l3 _ IH1 _ IH2]; simpl; lia.
Qed.

(** *** Aggregation *)


Section Aggregation.
Context (localeCompare : string → string → Z).
Context {A : Type} (emp : A → string) (amount : A → Js.number).

Lemma aggregate_summary_perm (rows : list A) :
  summaryRows (aggregate localeCompare emp amount rows)
  ≡ₚ map toSummary (byEmployee emp amount rows).
Proof. apply sortBy_perm. Qed.

Lemma aggregate_consistent (rows : list A) :
  (∀ r, r ∈ rows → Js.isFinite (amount r) = true) →
  totalsConsistent (aggregate localeCompare emp amount rows).
Proof.
  intros Hfin.
  destruct (byEmployee_sums emp amount rows Hfin) as (Hg & Htot & Hcnt).
  pose proof (aggregate_summary_perm rows) as Hperm.
  split.
  - destruct (sumOf_finite amount rows Hfin) as (q & Hq & Heq).
    destruct (sumOf_finite TotalAmountOwed
                (summaryRows (aggregate localeCompare emp amount rows)))
      as (q' & Hq' & Heq').
    { intros r Hr. rewrite Hperm in Hr.
      apply list_elem_of_fmap in Hr as (e & -> & He). now apply Hg. }
    rewrite Hq'. cbn [totalAmount aggregate]. rewrite Hq. simpl.
    apply Qeq_bool_iff. rewrite Heq', Heq, <- Htot.
    unfold amountsOf, totalsOf.
    rewrite (qsum_perm _ (map (fun r => valueOf (TotalAmountOwed r))
                              (map toSummary (byEmployee emp amount rows)))).
    + now rewrite map_map.
    + now apply Permutation_map.
  - rewrite (list_sum_perm _ (map ShiftsThatWereOwed
                                 (map toSummary (byEmployee emp amount rows)))).
    + rewrite map_map. exact Hcnt.
    + now apply Permutation_map.
Qed.

Lemma aggregate_employees (rows : list A) (row : Summary) :
  row ∈ summaryRows (aggregate localeCompare emp amount rows) →
  ∃ r, r ∈ rows ∧ emp r = Employee row.
Proof.
  rewrite aggregate_summary_perm.
  intros (e & -> & He)%list_elem_of_fmap.
  apply (byEmployee_keys emp amount rows). unfold JsMap.keys.
  apply list_elem_of_fmap. now exists e.
Qed.

Lemma aggregate_map {B : Type} (f : B → A) (rows : list B) :
  aggregate localeCompare emp amount (map f rows)
  = aggregate localeCompare (fun r => emp (f r)) (fun r => amount (f r)) rows.
Proof.
  unfold aggregate, byEmployee, sumOf.
  rewrite length_map.
  assert (G : ∀ m, fold_left (fun m r => accumulate m (emp r) (amount r)) (map f rows) m
                   = fold_left (fun m r => accumulate m (emp (f r)) (amount (f r))) rows m).
  { induction rows as [|r rows IH]; intros m; simpl; [reflexivity|apply IH]. }
  assert (H : ∀ a, fold_left (fun s r => Js.add s (amount r)) (map f rows) a
                   = fold_left (fun s r => Js.add s (amount (f r))) rows a).
  { clear G. induction rows as [|r rows IH]; intros a; simpl; [reflexivity|apply IH]. }
  now rewrite G, H.
Qed.
End Aggregation.

Lemma owedOf_amount_finite (rows : list (gmap string string)) (o : OwedShift) :
  o ∈ map owedOf rows → Js.isFinite (amount_owed o) = true.
Proof. intros (r & -> & _)%list_elem_of_fmap. apply amount_owed_finite. Qed.

(** *** The two handlers over the normalized rows *)

Lemma owedRows_eq (EXCLUDED_LOCATIONS : gset string)
    (parsed : list (list (string * jsval))) :
  owedRows EXCLUDED_LOCATIONS parsed
  = map owedOf (List.filter (fun r => keepRow EXCLUDED_LOCATIONS r && owes r)
                            (map normalizeRowKeys parsed)).
Proof. apply owed_pipeline. Qed.

Lemma clientRows_eq (parsed : list (list (string * jsval))) :
  Locations.clientRows parsed
  = map Locations.toClientRow
      (map owedOf (List.filter (fun r => Locations.keepRow r && owes r)
                               (map normalizeRowKeys parsed))).
Proof. unfold Locations.clientRows, Locations.filtered. now rewrite owed_pipeline. Qed.

Lemma keepRow_spec (EXCLUDED_LOCATIONS : gset string) (r : gmap string string) :
  keepRow EXCLUDED_LOCATIONS r = true
  ↔ (field r "employee" ≠ "") ∧ (field r "employee" ∉ EXCLUDED_EMPLOYEES)
    ∧ (field r "location" ∉ EXCLUDED_LOCATIONS).
Proof.
  unfold keepRow.
  destruct (String.eqb_spec (field r "employee") ""); [intuition congruence|].
  repeat case_bool_decide; intuition congruence.
Qed.

Lemma keepRow_by_location (EXCLUDED_LOCATIONS : gset string) (r : gmap string string) :
  keepRow EXCLUDED_LOCATIONS r
  = Locations.keepRow r
    && negb (bool_decide (field r "location" ∈ EXCLUDED_LOCATIONS)).
Proof.
  unfold keepRow, Locations.keepRow.
  destruct (String.eqb (field r "employee") ""); [reflexivity|].
  now repeat case_bool_decide.
Qed.

Lemma locations_keepRow_spec (r : gmap string string) :
  Locations.keepRow r = true
  ↔ (field r "employee" ≠ "") ∧ (field r "employee" ∉ EXCLUDED_EMPLOYEES).
Proof.
  unfold Locations.keepRow.
  destruct (String.eqb_spec (field r "employee") ""); [intuition congruence|].
  repeat case_bool_decide; intuition congruence.
Qed.

(** Without rounding the two sums agree. In the exact arithmetic of
    [Js.number] the totals of the summary rows add up to the overall amount,
    in the flat report and in the report by location; with the numbers of the
    source this holds up to rounding only ([Binary64Facts]). *)
Lemma exact_totals_agree (localeCompare : string → string → Z)
    (EXCLUDED_LOCATIONS : gset string) (parsed : list (list (string * jsval))) :
  totalsConsistent (computePayout localeCompare EXCLUDED_LOCATIONS parsed)
  ∧ totalsConsistent (Locations.report (Locations.POST localeCompare parsed)).
Proof.
  split.
  - apply aggregate_consistent.
    rewrite owedRows_eq. apply owedOf_amount_finite.
  - cbn [Locations.POST Locations.report]. apply aggregate_consistent.
    rewrite clientRows_eq.
    intros c (o & -> & Ho)%list_elem_of_fmap.
    exact (owedOf_amount_finite _ o Ho).
Qed.

(** C4. Restricting the snapshot of the report by location to the rows whose
    location is in [S], and grouping, sorting and totalling them again, gives
    the report of a run from the raw records that excludes the locations
    outside [S]: the same summary rows and the same totals. This holds for
    every selection [S], in particular for every subset of the locations of
    the snapshot. *)
Theorem reaggregate_equals_rerun (localeCompare : string → string → Z)
    (S : gset string) (parsed : list (list (string * jsval))) :
  let page := Locations.POST localeCompare parsed in
  reaggregate localeCompare S (Locations.dataRows page)
  = computePayout localeCompare
      (list_to_set (Locations.dataLocations page) ∖ S) parsed.
Proof.
  intros page. unfold page. cbn [Locations.POST Locations.dataRows Locations.dataLocations].
  set (allLocations := Locations.allLocations localeCompare (Locations.clientRows parsed)).
  unfold reaggregate, computePayout.
  rewrite owedRows_eq.
  assert (Hall : ∀ r, r ∈ map normalizeRowKeys parsed →
                      Locations.keepRow r && owes r = true →
                      field r "location" ∈ allLocations).
  { intros r Hr Hk. unfold allLocations, Locations.allLocations.
    apply elem_of_sortBy, elem_of_distinct.
    rewrite clientRows_eq, !map_map.
    apply list_elem_of_fmap. exists r. split; [reflexivity|].
    apply list_elem_of_In, filter_In. split; [now apply list_elem_of_In|exact Hk]. }
  rewrite clientRows_eq, !filter_map_swap, !aggregate_map. cbn [Locations.employee
    Locations.amountOwed Locations.location Locations.toClientRow].
  f_equal. rewrite filter_andb. apply filter_ext_in.
  intros raw Hraw%list_elem_of_In. rewrite keepRow_by_location.
  set (r := normalizeRowKeys raw).
  assert (Hr : r ∈ map normalizeRowKeys parsed)
    by (apply list_elem_of_fmap; now exists raw).
  change (location (owedOf r)) with (field r "location").
  destruct (Locations.keepRow r && owes r) eqn:Hk.
  - specialize (Hall r Hr Hk).
    destruct (Locations.keepRow r), (owes r); try discriminate. simpl.
    rewrite andb_true_r, <- bool_decide_not. apply bool_decide_ext.
    rewrite elem_of_difference, elem_of_list_to_set.
    destruct (decide (field r "location" ∈ S)); tauto.
  - destruct (Locations.keepRow r), (owes r); try discriminate; simpl;
      try reflexivity; now rewrite ?andb_false_r.
Qed.

(** C5, amended. Whatever the other fields, no summary row of either payout
    report carries an employee that is empty or that is, character for
    character, one of the excluded names; in particular not ["Troy"]. *)
Theorem excluded_employee_never_paid (localeCompare : string → string → Z)
    (parsed : list (list (string * jsval))) (row : Summary)
    (Hrow : row ∈ summaryRows (Calculate.POST localeCompare parsed)
            ∨ row ∈ summaryRows (Locations.report (Locations.POST localeCompare parsed))) :
  (Employee row ≠ "")
  ∧ (Employee row ∉ EXCLUDED_EMPLOYEES)
  ∧ (Employee row ≠ "Troy").
Proof.
  assert (H : Employee row ≠ "" ∧ Employee row ∉ EXCLUDED_EMPLOYEES).
  { destruct Hrow as [Hrow|Hrow].
    - unfold Calculate.POST, computePayout in Hrow.
      apply aggregate_employees in Hrow as (o & Ho & <-).
      rewrite owedRows_eq in Ho.
      apply list_elem_of_fmap in Ho as (r & -> & Hr).
      apply list_elem_of_In, filter_In in Hr as [_ Hk].
      apply andb_true_iff in Hk as [Hk _].
      apply keepRow_spec in Hk as (He & Hx & _). now split.
    - cbn [Locations.POST Locations.report] in Hrow.
      apply aggregate_employees in Hrow as (c & Hc & <-).
      rewrite clientRows_eq in Hc.
      apply list_elem_of_fmap in Hc as (o & -> & Ho).
      apply list_elem_of_fmap in Ho as (r & -> & Hr).
      apply list_elem_of_In, filter_In in Hr as [_ Hk].
      apply andb_true_iff in Hk as [Hk _].
      apply locations_keepRow_spec in Hk as (He & Hx). now split. }
  destruct H as [He Hx]. repeat split; [exact He|exact Hx|].
  intros Ht. apply Hx. rewrite Ht. vm_compute. reflexivity.
Qed.

End PayoutFacts.

(** ** The reconciliation engine *)

Module CrossrefFacts.
Import Crossref CrossrefSpec.

(** *** Composite keys *)


Lemma append_empty (b : string) : "" ++ b = b.
Proof. reflexivity. Qed.

Lemma append_String (c : ascii) (a b : string) :
  String c a ++ b = String c (a ++ b).
Proof. reflexivity. Qed.

Lemma append_inj_length (a a' b b' : string) :
  String.length a = String.length a' → a ++ b = a' ++ b' → a = a' ∧ b = b'.
Proof.
  revert a'. induction a as [|c a IH]; intros [|c' a']; simpl; try discriminate;
    repeat (rewrite append_empty || rewrite append_String).
  - now intros _ ->.
  - intros [= Hlen] [= -> Happ]. destruct (IH a' Hlen Happ) as [-> ->]. now split.
Qed.

Lemma append_inj_noBar (a a' b b' : string) :
  noBar a = true → noBar a' = true →
  a ++ "||" ++ b = a' ++ "||" ++ b' → a = a' ∧ b = b'.
Proof.
  revert a'. induction a as [|c a IH]; intros [|c' a']; simpl;
    repeat (rewrite append_empty || rewrite append_String).
  - intros _ _ [= ->]. now split.
  - intros _ [Hc _]%andb_true_iff [= <- _]. discriminate.
  - intros [Hc _]%andb_true_iff _ [= -> _]. discriminate.
  - intros [_ Ha]%andb_true_iff [_ Ha']%andb_true_iff [= -> Happ].
    destruct (IH a' Ha Ha' Happ) as [-> ->]. now split.
Qed.


Lemma keyOf_same_fields (s t : gmap string string) :
  keyFields s = keyFields t → keyOf s = keyOf t.
Proof. unfold keyFields, keyOf. now intros [= -> -> ->]. Qed.

Lemma keyOf_inj_length (s t : gmap string string) :
  String.length (interpolate (s !! "employee"))
  = String.length (interpolate (t !! "employee")) →
  String.length (interpolate (s !! "date"))
  = String.length (interpolate (t !! "date")) →
  keyOf s = keyOf t → keyFields s = keyFields t.
Proof.
  unfold keyOf, keyFields. intros He Hd H.
  apply append_inj_length in H as [-> H]; [|exact He].
  apply (append_inj_length "||" "||") in H as [_ H]; [|reflexivity].
  apply append_inj_length in H as [-> H]; [|exact Hd].
  apply (append_inj_length "||" "||") in H as [_ ->]; reflexivity.
Qed.

Lemma keyOf_inj_noBar (s t : gmap string string) :
  noBar (interpolate (s !! "employee")) = true →
  noBar (interpolate (s !! "date")) = true →
  noBar (interpolate (t !! "employee")) = true →
  noBar (interpolate (t !! "date")) = true →
  keyOf s = keyOf t → keyFields s = keyFields t.
Proof.
  unfold keyOf, keyFields. intros Hse Hsd Hte Htd H.
  apply append_inj_noBar in H as [-> H]; [|assumption..].
  apply append_inj_noBar in H as [-> ->]; [|assumption..].
  reflexivity.
Qed.

Lemma elem_of_workedSet (key : string) (filteredTimesheets : list (gmap string string)) :
  key ∈ workedSet filteredTimesheets
  ↔ ∃ t, t ∈ filteredTimesheets ∧ hasKeyColumns t = true ∧ keyOf t = key.
Proof.
  unfold workedSet. rewrite elem_of_list_to_set, list_elem_of_fmap. split.
  - intros (t & -> & [Ht Hk]%list_elem_of_In%filter_In). exists t.
    split; [now apply list_elem_of_In|now split].
  - intros (t & Ht & Hk & <-). exists t. split; [reflexivity|].
    apply list_elem_of_In, filter_In. split; [now apply list_elem_of_In|exact Hk].
Qed.

Lemma hasKeyColumns_spec (r : gmap string string) :
  hasKeyColumns r = true
  ↔ truthy (r !! "employee") = true ∧ truthy (r !! "date") = true
    ∧ truthy (r !! "location") = true.
Proof.
  unfold hasKeyColumns, KEY_COLUMNS. simpl. rewrite !andb_true_iff. tauto.
Qed.

Lemma truthy_Some (v : option string) :
  truthy v = true → ∃ s, v = Some s ∧ s ≠ "".
Proof.
  destruct v as [s|]; simpl; [|discriminate].
  destruct (String.eqb_spec s ""); [discriminate|]. intros _. now exists s.
Qed.

(** *** The loop over the scheduled rows *)


Lemma visit_spec (worked : gset string) (startCol endCol : option string)
    (st : Missed) (r : gmap string string) :
  visit worked startCol endCol st r
  = if isMissed worked r then
      let emp := interpolate (r !! "employee") in
      {| missedCount := missedCount st + 1;
         missedByEmployee :=
           JsMap.set emp
             (default [] (JsMap.get emp (missedByEmployee st))
                ++ [makeEntry startCol endCol r])%list
             (missedByEmployee st) |}
    else st.
Proof.
  unfold visit, isMissed.
  destruct (hasKeyColumns r) eqn:Hk; simpl; [|reflexivity].
  apply hasKeyColumns_spec in Hk as (He & _ & _).
  apply truthy_Some in He as (emp & -> & _). simpl.
  now destruct (bool_decide _).
Qed.

Lemma flatten_push (m : list (string * list Entry)) (k : string) (e : Entry) :
  flatten (JsMap.set k (default [] (JsMap.get k m) ++ [e])%list m)
  ≡ₚ (flatten m ++ [(k, e)])%list.
Proof.
  unfold flatten. induction m as [|[k0 v0] m IH]; simpl; [reflexivity|].
  destruct (String.eqb_spec k k0) as [->|Hne]; simpl.
  - rewrite map_app. simpl. rewrite <- !app_assoc.
    apply Permutation_app_head, Permutation_app_comm.
  - rewrite IH. now rewrite app_assoc.
Qed.

Lemma length_flatten (m : list (string * list Entry)) :
  length (flatten m) = list_sum (map (fun g => length g.2) m).
Proof.
  unfold flatten. induction m as [|[k v] m IH]; simpl; [reflexivity|].
  now rewrite length_app, length_map, IH.
Qed.

Section Loop.
Context (worked : gset string) (startCol endCol : option string).

Lemma loop_invariant (rows : list (gmap string string)) (st : Missed) :
  let st' := fold_left (visit worked startCol endCol) rows st in
  flatten (missedByEmployee st')
  ≡ₚ (flatten (missedByEmployee st)
      ++ map (recordOf startCol endCol) (List.filter (isMissed worked) rows))%list
  ∧ missedCount st'
    = missedCount st + length (List.filter (isMissed worked) rows)
  ∧ (NoDup (JsMap.keys (missedByEmployee st)) →
     NoDup (JsMap.keys (missedByEmployee st'))).
Proof.
  revert st. induction rows as [|r rows IH]; intros st; simpl.
  - rewrite app_nil_r. split; [reflexivity|split; [lia|tauto]].
  - rewrite visit_spec.
    destruct (isMissed worked r); simpl; [|apply IH].
    match goal with |- context [fold_left _ rows ?s] =>
      destruct (IH s) as (Hf & Hc & Hn) end.
    simpl in Hf, Hc, Hn. split; [|split].
    + rewrite Hf, flatten_push, <- app_assoc. reflexivity.
    + rewrite Hc. lia.
    + intros Hnd. apply Hn. now apply JsMapFacts.keys_set_NoDup.
Qed.
End Loop.

Lemma get_of_NoDup (m : list (string * list Entry)) :
  NoDup (JsMap.keys m) →
  map (fun emp => map (pair emp) (default [] (JsMap.get emp m))) (JsMap.keys m)
  = map (fun g => map (pair g.1) g.2) m.
Proof.
  unfold JsMap.keys. induction m as [|[k v] m IH]; simpl; [reflexivity|].
  intros [Hnot Hnd]%NoDup_cons. rewrite String.eqb_refl. simpl. f_equal.
  rewrite <- IH by exact Hnd. rewrite !map_map. apply map_ext_in.
  intros [k' v'] Hin. simpl.
  destruct (String.eqb_spec k' k) as [->|Hne]; [|reflexivity].
  exfalso. apply Hnot. apply list_elem_of_fmap. exists (k, v').
  split; [reflexivity|now apply list_elem_of_In].
Qed.

Lemma tableRows_perm (localeCompare : string → string → Z)
    (m : list (string * list Entry)) :
  NoDup (JsMap.keys m) → tableRows localeCompare m ≡ₚ flatten m.
Proof.
  intros Hnd. unfold tableRows, flatten.
  rewrite <- !flat_map_concat_map.
  rewrite (sortBy_perm localeCompare (JsMap.keys m)).
  rewrite !flat_map_concat_map. now rewrite get_of_NoDup.
Qed.

Lemma reconcile_spec (scheduledParsed timesheetsParsed : list (list (string * jsval))) :
  let filteredScheduled := List.filter keepRow (map normalizeRowKeys scheduledParsed) in
  let filteredTimesheets := List.filter keepRow (map normalizeRowKeys timesheetsParsed) in
  let startCol := probe SCHEDULED_START_CANDIDATES filteredScheduled in
  let endCol := probe SCHEDULED_END_CANDIDATES filteredScheduled in
  let st := reconcile scheduledParsed timesheetsParsed in
  let reported := List.filter (isMissed (workedSet filteredTimesheets)) filteredScheduled in
  flatten (missedByEmployee st) ≡ₚ map (recordOf startCol endCol) reported
  ∧ missedCount st = length reported
  ∧ NoDup (JsMap.keys (missedByEmployee st)).
Proof.
  intros fs ft sc ec st reported.
  destruct (loop_invariant (workedSet ft) sc ec fs
              {| missedCount := 0; missedByEmployee := [] |}) as (Hf & Hc & Hn).
  split; [exact Hf|split; [exact Hc|]]. apply Hn. constructor.
Qed.

(** *** Which scheduled rows are reported *)


Lemma keyFields_lookup (s t : gmap string string) :
  hasKeyColumns s = true → hasKeyColumns t = true →
  keyFields s = keyFields t →
  s !! "employee" = t !! "employee" ∧ s !! "location" = t !! "location".
Proof.
  intros (He & _ & Hl)%hasKeyColumns_spec (He' & _ & Hl')%hasKeyColumns_spec.
  apply truthy_Some in He as (e & He & _), Hl as (l & Hl & _),
    He' as (e' & He' & _), Hl' as (l' & Hl' & _).
  unfold keyFields. rewrite He, Hl, He', Hl'. simpl. now intros [= -> _ ->].
Qed.

(** Where no key field holds a [|], a scheduled row that passed the filter is
    reported exactly when its three key fields are non-empty and no timesheet
    row with three non-empty key fields has the same triple. *)
Lemma missed_iff_no_matching_triple
    (timesheetRows : list (gmap string string)) (r : gmap string string) :
  keepRow r = true →
  noBar (interpolate (r !! "employee")) = true →
  noBar (interpolate (r !! "date")) = true →
  (∀ t, t ∈ timesheetRows → hasKeyColumns t = true →
        noBar (interpolate (t !! "employee")) = true
        ∧ noBar (interpolate (t !! "date")) = true) →
  isMissed (workedSet (List.filter keepRow timesheetRows)) r = true
  ↔ hasKeyColumns r = true
    ∧ ∀ t, t ∈ timesheetRows → hasKeyColumns t = true → keyFields t ≠ keyFields r.
Proof.
  intros Hkeep Hre Hrd Hts. unfold isMissed.
  rewrite andb_true_iff, negb_true_iff, bool_decide_eq_false, elem_of_workedSet.
  split; intros [Hk Hno]; (split; [exact Hk|]).
  - intros t Ht Htk Heq. apply Hno. exists t.
    split; [|split; [exact Htk|now apply keyOf_same_fields]].
    apply list_elem_of_In, filter_In. split; [now apply list_elem_of_In|].
    destruct (keyFields_lookup t r Htk Hk Heq) as [He Hl].
    unfold keepRow in *. now rewrite He, Hl.
  - intros (t & [Ht _]%list_elem_of_In%filter_In & Htk & Hkey).
    apply list_elem_of_In in Ht.
    destruct (Hts t Ht Htk) as [Hte Htd].
    apply (Hno t Ht Htk). now apply keyOf_inj_noBar.
Qed.

(** C1, at the failing input. The key is the three fields joined by [||], so
    two different triples can give one key: the scheduled shift
    (Ann, 2024-01-01||Main, Bar) has no timesheet row with its triple, and yet
    is not reported, because the row (Ann, 2024-01-01, Main||Bar) has its key. *)
Lemma joined_key_collision_hides_missed_shift :
  let scheduled :=
    [("employee", JString "Ann"); ("date", JString "2024-01-01||Main");
     ("location", JString "Bar")] in
  let timesheet :=
    [("employee", JString "Ann"); ("date", JString "2024-01-01");
     ("location", JString "Main||Bar")] in
  keepRow (normalizeRowKeys scheduled) = true
  ∧ hasKeyColumns (normalizeRowKeys scheduled) = true
  ∧ hasKeyColumns (normalizeRowKeys timesheet) = true
  ∧ keyFields (normalizeRowKeys scheduled) ≠ keyFields (normalizeRowKeys timesheet)
  ∧ keyOf (normalizeRowKeys scheduled) = keyOf (normalizeRowKeys timesheet)
  ∧ reconcile [scheduled] [timesheet]
    = {| missedCount := 0; missedByEmployee := [] |}.
Proof.
  simpl. repeat split; try (vm_compute; reflexivity).
  vm_compute. discriminate.
Qed.

(** C6, as stated, fails. The Normalizer lower-cases column names, not
    values, and the key is built from the values as they are: a timesheet row
    for ["alice"] does not match the scheduled shift of ["Alice"], which is
    reported as missed. *)
Lemma letter_case_prevents_match :
  let scheduled :=
    [("Employee", JString "Alice"); ("Date", JString "2024-01-01");
     ("Location", JString "X")] in
  let timesheet :=
    [("Employee", JString "alice"); ("Date", JString "2024-01-01");
     ("Location", JString "X")] in
  normalizeRowKeys scheduled !! "employee" = Some "Alice"
  ∧ lowerFields (normalizeRowKeys scheduled) = lowerFields (normalizeRowKeys timesheet)
  ∧ keyOf (normalizeRowKeys scheduled) ≠ keyOf (normalizeRowKeys timesheet)
  ∧ reconcile [scheduled] [timesheet]
    = {| missedCount := 1;
         missedByEmployee :=
           [("Alice", [{| date := Some "2024-01-01"; location := Some "X";
                          startEnd := None |}])] |}.
Proof.
  simpl. repeat split; try (vm_compute; reflexivity).
  vm_compute. discriminate.
Qed.

(** C6, amended. The key is compared on the trimmed field values, with their
    letter case. For a scheduled and a timesheet record that both carry the
    three key fields: when the fields are equal after normalization the
    scheduled record is matched, and when they are unequal but differ only in
    letter case it is not matched, and is reported. *)
Theorem reconciliation_key_keeps_case (s t : list (string * jsval))
    (Hs : hasKeyColumns (normalizeRowKeys s) = true)
    (Ht : hasKeyColumns (normalizeRowKeys t) = true) :
  (keyFields (normalizeRowKeys s) = keyFields (normalizeRowKeys t) →
   isMissed (workedSet [normalizeRowKeys t]) (normalizeRowKeys s) = false)
  ∧ (keyFields (normalizeRowKeys s) ≠ keyFields (normalizeRowKeys t) →
     lowerFields (normalizeRowKeys s) = lowerFields (normalizeRowKeys t) →
     isMissed (workedSet [normalizeRowKeys t]) (normalizeRowKeys s) = true).
Proof.
  set (ns := normalizeRowKeys s) in *. set (nt := normalizeRowKeys t) in *.
  assert (Hw : ∀ key, key ∈ workedSet [nt] ↔ keyOf nt = key).
  { intros key. rewrite elem_of_workedSet. split.
    - intros (t' & ->%list_elem_of_singleton & _ & H). exact H.
    - intros H. exists nt. split; [apply list_elem_of_singleton; reflexivity|].
      now split. }
  unfold isMissed. rewrite Hs. simpl. split.
  - intros Heq. rewrite negb_false_iff, bool_decide_eq_true, Hw.
    symmetry. now apply keyOf_same_fields.
  - intros Hne Hlow. rewrite negb_true_iff, bool_decide_eq_false, Hw.
    intros Hkey. apply Hne. symmetry. apply keyOf_inj_length; [| |exact Hkey].
    + injection Hlow as He _ _.
      rewrite <- (JsFacts.toLowerCase_length (interpolate (nt !! "employee"))), <- He.
      apply JsFacts.toLowerCase_length.
    + injection Hlow as _ Hd _.
      rewrite <- (JsFacts.toLowerCase_length (interpolate (nt !! "date"))), <- Hd.
      apply JsFacts.toLowerCase_length.
Qed.

Lemma reconciliation_key_keeps_case_witness :
  let scheduled :=
    [("Employee", JString "Alice"); ("Date", JString "2024-01-01");
     ("Location", JString "X")] in
  let timesheet :=
    [("Employee", JString "alice"); ("Date", JString "2024-01-01");
     ("Location", JString "X")] in
  isMissed (workedSet [normalizeRowKeys scheduled]) (normalizeRowKeys scheduled)
  = false
  ∧ isMissed (workedSet [normalizeRowKeys timesheet]) (normalizeRowKeys scheduled)
    = true.
Proof.
  intros scheduled timesheet. split.
  - destruct (reconciliation_key_keeps_case scheduled scheduled) as [Hsame _];
      [vm_compute; reflexivity..|].
    apply Hsame. reflexivity.
  - destruct (reconciliation_key_keeps_case scheduled timesheet) as [_ Hcase];
      [vm_compute; reflexivity..|].
    apply Hcase; vm_compute; [discriminate|reflexivity].
Defined.

(** C10. The reported total is the number of missed-shift records: it is the
    sum of the sizes of the employee groups and the number of table rows of
    the response, and the page without rows is served exactly when it is 0. *)
Theorem missed_count_matches_records (localeCompare : string → string → Z)
    (scheduledParsed timesheetsParsed : list (list (string * jsval))) :
  let st := reconcile scheduledParsed timesheetsParsed in
  missedCount st = list_sum (map (fun g => length g.2) (missedByEmployee st))
  ∧ missedCount st = length (tableRows localeCompare (missedByEmployee st))
  ∧ match POST localeCompare scheduledParsed timesheetsParsed with
    | AllMatched => missedCount st = 0 ∧ tableRows localeCompare (missedByEmployee st) = []
    | MissedShifts total employees rows =>
        total ≠ 0
        ∧ total = length rows
        ∧ total = list_sum (map (fun g => length g.2) (missedByEmployee st))
        ∧ employees = length (missedByEmployee st)
    end.
Proof.
  intros st.
  destruct (reconcile_spec scheduledParsed timesheetsParsed) as (Hf & Hc & Hn).
  fold st in Hf, Hc, Hn.
  assert (Hsum : missedCount st
                 = list_sum (map (fun g => length g.2) (missedByEmployee st))).
  { rewrite <- length_flatten, Hf, length_map. exact Hc. }
  assert (Hrows : missedCount st = length (tableRows localeCompare (missedByEmployee st))).
  { rewrite (tableRows_perm localeCompare _ Hn), length_flatten. exact Hsum. }
  split; [exact Hsum|]. split; [exact Hrows|].
  unfold POST. fold st.
  destruct (Nat.eqb_spec (missedCount st) 0) as [H0|H0].
  - split; [exact H0|]. apply length_zero_iff_nil. now rewrite <- Hrows.
  - split; [exact H0|]. split; [exact Hrows|]. split; [exact Hsum|].
    rewrite length_sortBy. unfold JsMap.keys. apply length_map.
Qed.

End CrossrefFacts.

(** ** Concrete runs *)

(** C5, as stated, fails. The exclusion set is used as written and the
    employee value keeps its case, so ["troy"] and ["TROY"] are not excluded:
    each gets a summary row. *)
Lemma other_casings_of_excluded_name_are_paid :
  Payout.summaryRows
    (Calculate.POST codeUnitCompare
       [[("employee", JString "troy"); ("location", JString "Main St");
         ("tips", JString "5"); ("cost", JString "20")]])
  = [{| Payout.Employee := "troy";
        Payout.TotalAmountOwed := Js.Finite 15;
        Payout.ShiftsThatWereOwed := 1;
        Payout.AverageOwedPerShift := Js.Finite 15 |}]
  ∧ Payout.summaryRows
      (Calculate.POST codeUnitCompare
         [[("employee", JString "TROY"); ("location", JString "Main St");
           ("tips", JString "5"); ("cost", JString "20")]])
    = [{| Payout.Employee := "TROY";
          Payout.TotalAmountOwed := Js.Finite 15;
          Payout.ShiftsThatWereOwed := 1;
          Payout.AverageOwedPerShift := Js.Finite 15 |}]
  ∧ Payout.summaryRows
      (Calculate.POST codeUnitCompare
         [[("employee", JString "Troy"); ("location", JString "Main St");
           ("tips", JString "5"); ("cost", JString "20")]])
    = [].
Proof. repeat split; vm_compute; reflexivity. Qed.

Lemma excluded_employee_never_paid_witness :
  let row := {| Payout.Employee := "Bob";
                Payout.TotalAmountOwed := Js.Finite 15;
                Payout.ShiftsThatWereOwed := 1;
                Payout.AverageOwedPerShift := Js.Finite 15 |} in
  (Payout.Employee row ≠ "")
  ∧ (Payout.Employee row ∉ Payout.EXCLUDED_EMPLOYEES)
  ∧ (Payout.Employee row ≠ "Troy").
Proof.
  intros row.
  apply (PayoutFacts.excluded_employee_never_paid codeUnitCompare
           [[("employee", JString "Bob"); ("location", JString "Main St");
             ("tips", JString "5"); ("cost", JString "20")]] row).
  left. vm_compute. left.
Defined.


(** * Further properties of the code *)

(** ** [escapeHtml] *)

Module HtmlFacts.
Import Html HtmlSpec.

Lemma append_assoc (a b c : string) : (a ++ b) ++ c = a ++ (b ++ c).
Proof.
  induction a as [|x a IH]; [reflexivity|].
  now rewrite !CrossrefFacts.append_String, IH.
Qed.

Lemma replaceAll_app (c : ascii) (rep a b : string) :
  replaceAll c rep (a ++ b) = replaceAll c rep a ++ replaceAll c rep b.
Proof.
  induction a as [|x a IH].
  - reflexivity.
  - rewrite CrossrefFacts.append_String. simpl.
    destruct (Ascii.eqb x c).
    + rewrite IH. now rewrite append_assoc.
    + now rewrite IH, CrossrefFacts.append_String.
Qed.

Lemma escapeHtml_app (a b : string) :
  escapeHtml (a ++ b) = escapeHtml a ++ escapeHtml b.
Proof. unfold escapeHtml. now rewrite !replaceAll_app. Qed.

Lemma escapeHtml_one (a : ascii) : escapeHtml (String a EmptyString) = escapeChar a.
Proof. destruct a as [[] [] [] [] [] [] [] []]; vm_compute; reflexivity. Qed.

Lemma escapeHtml_String (a : ascii) (s : string) :
  escapeHtml (String a s) = escapeChar a ++ escapeHtml s.
Proof.
  change (String a s) with (String a EmptyString ++ s).
  now rewrite escapeHtml_app, escapeHtml_one.
Qed.

Lemma anyChar_app (p : ascii → bool) (a b : string) :
  anyChar p (a ++ b) = anyChar p a || anyChar p b.
Proof.
  induction a as [|x a IH]; [reflexivity|].
  rewrite CrossrefFacts.append_String. simpl. now rewrite IH, orb_assoc.
Qed.

Lemma escapeChar_no_markup (a : ascii) : anyChar isMarkup (escapeChar a) = false.
Proof. destruct a as [[] [] [] [] [] [] [] []]; vm_compute; reflexivity. Qed.

Lemma unescape_escapeChar (a : ascii) (r : string) :
  unescapeHtml (escapeChar a ++ r) = String a (unescapeHtml r).
Proof. destruct a as [[] [] [] [] [] [] [] []]; reflexivity. Qed.

Lemma escapeChar_plain (a : ascii) :
  Ascii.eqb a "&" || isMarkup a = false → escapeChar a = String a EmptyString.
Proof. destruct a as [[] [] [] [] [] [] [] []]; vm_compute; (reflexivity || discriminate). Qed.

Lemma escapeChar_length (a : ascii) : (1 ≤ String.length (escapeChar a))%nat.
Proof. destruct a as [[] [] [] [] [] [] [] []]; vm_compute; lia. Qed.

Lemma length_append (a b : string) :
  String.length (a ++ b) = String.length a + String.length b.
Proof.
  induction a as [|x a IH]; [reflexivity|].
  rewrite CrossrefFacts.append_String. simpl. now rewrite IH.
Qed.

(** X1. The output of [escapeHtml] holds none of the characters [<], [>],
    double quote and single quote, whatever the input. *)
Theorem escapeHtml_no_markup (s : string) :
  anyChar isMarkup (escapeHtml s) = false.
Proof.
  induction s as [|a s IH]; [reflexivity|].
  now rewrite escapeHtml_String, anyChar_app, escapeChar_no_markup, IH.
Qed.

(** X2. [escapeHtml] loses nothing: decoding the five entities gives the input
    back, so two different texts never have the same escaped form. *)
Theorem escapeHtml_round_trip (s : string) :
  unescapeHtml (escapeHtml s) = s
  ∧ (∀ t, escapeHtml s = escapeHtml t → s = t).
Proof.
  assert (H : ∀ u, unescapeHtml (escapeHtml u) = u).
  { induction u as [|a u IH]; [reflexivity|].
    now rewrite escapeHtml_String, unescape_escapeChar, IH. }
  split; [apply H|]. intros t Heq.
  rewrite <- (H s), <- (H t). now rewrite Heq.
Qed.

(** X3. [escapeHtml] works character by character: the escaped form of a
    concatenation is the concatenation of the escaped forms, it is never
    shorter than the input, and a text without [&], [<], [>] and quotes is
    returned unchanged. *)
Theorem escapeHtml_structure (a b : string) :
  escapeHtml (a ++ b) = escapeHtml a ++ escapeHtml b
  ∧ (String.length a ≤ String.length (escapeHtml a))%nat
  ∧ (anyChar (fun c => Ascii.eqb c "&" || isMarkup c) a = false →
     escapeHtml a = a).
Proof.
  split; [apply escapeHtml_app|]. split.
  - induction a as [|x a IH]; [reflexivity|].
    rewrite escapeHtml_String, length_append. simpl.
    pose proof (escapeChar_length x). lia.
  - induction a as [|x a IH]; [reflexivity|].
    simpl. intros [Hx Ha]%orb_false_iff.
    rewrite escapeHtml_String, (escapeChar_plain x Hx), (IH Ha).
    reflexivity.
Qed.

End HtmlFacts.

(** ** More on the Normalizer *)

Module NormalizerMore.

Lemma dom_normalize_fold (l : list (string * jsval)) (acc : gmap string string) :
  dom (fold_left normalizeStep l acc)
  = dom acc
    ∪ list_to_set (List.filter (fun name => negb (String.eqb name "__proto__"))
                               (map (fun kv => normalizeKey kv.1) l)).
Proof.
  revert acc. induction l as [|kv l IH]; intros acc; simpl.
  - now rewrite union_empty_r_L.
  - rewrite IH. unfold normalizeStep. cbv zeta.
    destruct (String.eqb (normalizeKey kv.1) "__proto__"); simpl; [reflexivity|].
    rewrite dom_insert_L.
    rewrite (union_comm_L {[normalizeKey kv.1]} (dom acc)).
    now rewrite <- union_assoc_L.
Qed.

Lemma size_normalize_fold (l : list (string * jsval)) (acc : gmap string string) :
  (size (fold_left normalizeStep l acc) ≤ size acc + length l)%nat.
Proof.
  revert acc. induction l as [|kv l IH]; intros acc; simpl; [lia|].
  etransitivity; [apply IH|]. unfold normalizeStep. cbv zeta.
  destruct (String.eqb (normalizeKey kv.1) "__proto__"); [lia|].
  destruct (acc !! normalizeKey kv.1) eqn:E.
  - rewrite map_size_insert_Some by eauto. lia.
  - rewrite map_size_insert_None by exact E. lia.
Qed.

(** X4. The columns of a normalized record are exactly the trimmed,
    lower-cased names of the input's columns other than [__proto__]: apart
    from that name none is dropped, none is invented, and there are at most as
    many as in the input. *)
Theorem normalizeRowKeys_columns (raw : list (string * jsval)) :
  dom (normalizeRowKeys raw)
  = list_to_set
      (List.filter (fun name => negb (String.eqb name "__proto__"))
                   (map (fun kv => Js.toLowerCase (Js.trim kv.1)) raw))
  ∧ (size (normalizeRowKeys raw) ≤ length raw)%nat.
Proof.
  split.
  - unfold normalizeRowKeys. rewrite dom_normalize_fold, dom_empty_L.
    now rewrite union_empty_l_L.
  - pose proof (size_normalize_fold raw ∅) as H. rewrite map_size_empty in H.
    exact H.
Qed.

(** X5. Every column a normalized record holds has a name that is already
    trimmed and lower-cased and a value that is already trimmed, and none of
    them is named [__proto__]. *)
Theorem normalizeRowKeys_canonical (raw : list (string * jsval)) :
  map_Forall (fun name value => Js.toLowerCase (Js.trim name) = name
                                ∧ Js.trim value = value
                                ∧ name ≠ "__proto__")
             (normalizeRowKeys raw).
Proof.
  intros i x Hix. split; [|split].
  - exact (normalized_name raw i x Hix).
  - exact (normalized_value raw i x Hix).
  - intros ->. rewrite normalized_not_proto in Hix. discriminate.
Qed.

Lemma normalize_lookup_distinct (raw : list (string * jsval)) (i x : string) :
  NoDup (map (fun kv => normalizeKey kv.1) raw) →
  normalizeRowKeys raw !! i = Some x
  ↔ ∃ kv, kv ∈ raw ∧ i = normalizeKey kv.1 ∧ x = normalizeValue kv.2
          ∧ i ≠ "__proto__".
Proof.
  intros Hnd. split.
  - intros H. destruct (normalize_origin _ _ _ H) as (kv & Hin & Hi & Hx).
    exists kv. repeat split; try assumption.
    intros ->. rewrite normalized_not_proto in H. discriminate.
  - intros ([k v] & Hin & -> & -> & Hp). simpl in *.
    apply list_elem_of_split in Hin as (l1 & l2 & ->).
    apply normalize_last_wins; [exact Hp|]. intros kv Hkv Heq.
    rewrite map_app in Hnd. simpl in Hnd.
    apply NoDup_app in Hnd as (_ & _ & Hnd).
    apply NoDup_cons in Hnd as [Hnot _]. apply Hnot.
    rewrite <- Heq. apply list_elem_of_fmap. now exists kv.
Qed.

(** X6. When no two columns of a record share a normalized name, the order of
    the columns does not matter: any reordering normalizes to the same
    record. *)
Theorem normalizeRowKeys_column_order (raw raw' : list (string * jsval))
    (Hperm : raw ≡ₚ raw')
    (Hdistinct : NoDup (map (fun kv => Js.toLowerCase (Js.trim kv.1)) raw)) :
  normalizeRowKeys raw = normalizeRowKeys raw'.
Proof.
  assert (Hnd' : NoDup (map (fun kv => normalizeKey kv.1) raw'))
    by (rewrite <- Hperm; exact Hdistinct).
  apply map_eq. intros i. apply option_eq. intros x.
  rewrite (normalize_lookup_distinct raw i x Hdistinct).
  rewrite (normalize_lookup_distinct raw' i x Hnd').
  split; intros (kv & Hin & H); exists kv; (split; [|exact H]).
  - now rewrite <- Hperm.
  - now rewrite Hperm.
Qed.

Lemma normalizeRowKeys_column_order_witness :
  normalizeRowKeys [("Employee", JString "Bob"); ("Tips ", JString "5")]
  = normalizeRowKeys [("Tips ", JString "5"); ("Employee", JString "Bob")].
Proof.
  apply normalizeRowKeys_column_order.
  - apply perm_swap.
  - vm_compute. repeat constructor; intros H; inversion H; subst;
      try discriminate; match goal with H' : _ ∈ [] |- _ => inversion H'
                                   | H' : _ ∈ [_] |- _ => inversion H'; subst end;
      try discriminate; match goal with H' : _ ∈ [] |- _ => inversion H' end.
Defined.

End NormalizerMore.

(** ** More on the currency parser *)

Module CurrencyMore.
Import Js CurrencySpec.

Lemma removeAll_app (cls : ascii → bool) (a b : string) :
  removeAll cls (a ++ b) = removeAll cls a ++ removeAll cls b.
Proof.
  induction a as [|x a IH]; [reflexivity|].
  rewrite CrossrefFacts.append_String. simpl.
  destruct (cls x); [exact IH|]. now rewrite IH.
Qed.

(** X7. Dollar signs, commas and white space may stand anywhere in the text:
    inserting one of them changes nothing in the parsed amount. *)
Theorem cleanCurrency_ignores_noise (a b : string) (c : ascii)
    (Hc : currencyNoise c = true) :
  cleanCurrency (CString (a ++ String c b)) = cleanCurrency (CString (a ++ b)).
Proof.
  unfold cleanCurrency. rewrite !removeAll_app. simpl. now rewrite Hc.
Qed.

Lemma cleanCurrency_ignores_noise_witness :
  cleanCurrency (CString ("1" ++ String "," "234"))
  = cleanCurrency (CString ("1" ++ "234")).
Proof. apply cleanCurrency_ignores_noise. reflexivity. Defined.

Lemma parseFloat_unsigned (input : string) :
  parseFloat input
  = match trimStart input with
    | String "-" r => parseUnsigned true r
    | String "+" r => parseUnsigned false r
    | s => parseUnsigned false s
    end.
Proof.
  unfold parseFloat, parseUnsigned.
  destruct (trimStart input) as [|c r]; [reflexivity|].
  destruct c as [[] [] [] [] [] [] [] []]; reflexivity.
Qed.

Lemma noise_whitespace (c : ascii) : currencyNoise c = false → isWhiteSpace c = false.
Proof. unfold currencyNoise. now intros [_ H]%orb_false_iff. Qed.

Lemma trimStart_cleaned (s : string) :
  trimStart (removeAll currencyNoise s) = removeAll currencyNoise s.
Proof.
  apply JsFacts.trimStart_cleanHead.
  induction s as [|c s IH]; [reflexivity|]. simpl.
  destruct (currencyNoise c) eqn:E; [exact IH|]. simpl.
  now rewrite (noise_whitespace c E).
Qed.

Lemma finiteOrZero_negated (s1 : string) :
  finiteOrZero (parseUnsigned true s1) = neg (finiteOrZero (parseUnsigned false s1)).
Proof.
  unfold parseUnsigned.
  destruct (startsWith "Infinity" s1); [reflexivity|].
  destruct (spanDigits s1) as [ip s2].
  destruct (match s2 with String "." r => spanDigits r | _ => ([], s2) end) as [fp s3].
  assert (H : ∀ m e, finiteOrZero (ofDecimal true m e)
                     = neg (finiteOrZero (ofDecimal false m e))).
  { intros m e. unfold ofDecimal. now destruct (Qle_bool _ _). }
  destruct ip, fp; try apply H. reflexivity.
Qed.

(** X8. The sign is kept: a minus sign in front of a text that does not itself
    start with a sign, once cleaned, negates the parsed amount. *)
Theorem cleanCurrency_minus (s : string)
    (Hs : startsWithSign (removeAll currencyNoise s) = false) :
  cleanCurrency (CString (String "-" s)) = neg (cleanCurrency (CString s)).
Proof.
  change (cleanCurrency (CString (String "-" s)))
    with (finiteOrZero (parseFloat (String "-" (removeAll currencyNoise s)))).
  change (cleanCurrency (CString s))
    with (finiteOrZero (parseFloat (removeAll currencyNoise s))).
  rewrite !parseFloat_unsigned.
  change (trimStart (String "-" (removeAll currencyNoise s)))
    with (String "-" (removeAll currencyNoise s)).
  rewrite trimStart_cleaned.
  cbv beta iota.
  destruct (removeAll currencyNoise s) as [|c r] eqn:E.
  - reflexivity.
  - rewrite finiteOrZero_negated.
    destruct c as [[] [] [] [] [] [] [] []]; try reflexivity; discriminate Hs.
Qed.

Lemma cleanCurrency_minus_witness :
  cleanCurrency (CString (String "-" "$5")) = neg (cleanCurrency (CString "$5")).
Proof. apply cleanCurrency_minus. reflexivity. Defined.

Lemma digit_facts (c : ascii) :
  isDigit c = true →
  currencyNoise c = false ∧ isWhiteSpace c = false
  ∧ Ascii.eqb c "-" = false ∧ Ascii.eqb c "+" = false ∧ Ascii.eqb "I" c = false.
Proof.
  destruct c as [[] [] [] [] [] [] [] []]; vm_compute; intros H;
    (discriminate H || (repeat split; reflexivity)).
Qed.

Lemma removeAll_digits (ds : list ascii) :
  forallb isDigit ds = true →
  removeAll currencyNoise (string_of_list_ascii ds) = string_of_list_ascii ds.
Proof.
  induction ds as [|d ds IH]; [reflexivity|]. simpl.
  intros [Hd Hds]%andb_true_iff.
  destruct (digit_facts d Hd) as (-> & _). now rewrite IH.
Qed.

Lemma spanDigits_digits (ds : list ascii) :
  forallb isDigit ds = true →
  spanDigits (string_of_list_ascii ds) = (ds, EmptyString).
Proof.
  induction ds as [|d ds IH]; [reflexivity|]. simpl.
  intros [Hd Hds]%andb_true_iff. now rewrite Hd, IH.
Qed.

Lemma parseFloat_digit_head (d : ascii) (r : string) :
  isDigit d = true → parseFloat (String d r) = parseUnsigned false (String d r).
Proof.
  destruct d as [[] [] [] [] [] [] [] []]; intros H; try discriminate H; reflexivity.
Qed.

(** X9. A text made of decimal digits only parses to the integer it writes,
    as long as that integer is at most [2^53]: up to there every integer is a
    number of its own, and no rounding takes place. *)
Theorem cleanCurrency_digits (d : ascii) (ds : list ascii)
    (Hdigits : forallb isDigit (d :: ds) = true)
    (Hbound : (digitsValue (d :: ds) <= 2 ^ 53)%Z) :
  cleanCurrency (CString (string_of_list_ascii (d :: ds)))
  = Finite (inject_Z (digitsValue (d :: ds))).
Proof.
  assert (Hbig : (2 ^ 53 < 2 ^ 1024 - 2 ^ 970)%Z) by (vm_compute; reflexivity).
  unfold cleanCurrency. rewrite (removeAll_digits _ Hdigits).
  pose proof Hdigits as Hd. simpl in Hd. apply andb_true_iff in Hd as [Hd _].
  destruct (digit_facts d Hd) as (_ & _ & _ & _ & HI).
  change (string_of_list_ascii (d :: ds)) with (String d (string_of_list_ascii ds)).
  rewrite (parseFloat_digit_head d _ Hd). unfold parseUnsigned.
  change (startsWith "Infinity" (String d (string_of_list_ascii ds)))
    with (Ascii.eqb "I" d && startsWith "nfinity" (string_of_list_ascii ds)).
  rewrite HI. cbn [andb].
  change (String d (string_of_list_ascii ds)) with (string_of_list_ascii (d :: ds)).
  rewrite (spanDigits_digits _ Hdigits).
  cbv beta iota. rewrite app_nil_r.
  change (exponentPart EmptyString - Z.of_nat (length (@nil ascii)))%Z with 0%Z.
  unfold ofDecimal, scale10. cbn [Z.leb Z.compare].
  rewrite Z.pow_0_r, Z.mul_1_r.
  assert (Hq : Qle_bool overflowBound (inject_Z (digitsValue (d :: ds))) = false).
  { destruct (Qle_bool _ _) eqn:E; [|reflexivity].
    apply Qle_bool_iff in E. unfold overflowBound in E.
    rewrite <- Zle_Qle in E.
    exfalso. apply (Z.lt_irrefl (2 ^ 53)).
    eapply Z.lt_le_trans; [exact Hbig|].
    eapply Z.le_trans; [exact E|exact Hbound]. }
  rewrite Hq. reflexivity.
Qed.

Lemma cleanCurrency_digits_witness :
  cleanCurrency (CString (string_of_list_ascii ["4"; "2"]%char))
  = Finite (inject_Z (digitsValue ["4"; "2"]%char)).
Proof. apply cleanCurrency_digits; [reflexivity|]. vm_compute. discriminate. Defined.

End CurrencyMore.

(** ** More on the payout engine *)

Module PayoutMore.
Import Payout PayoutSpec PayoutFacts SortSpec.

Lemma get_of_elem {V : Type} (m : list (string * V)) (k : string) (v : V) :
  NoDup (JsMap.keys m) → (k, v) ∈ m → JsMap.get k m = Some v.
Proof.
  unfold JsMap.keys. induction m as [|[k0 v0] m IH]; simpl.
  - intros _ H. now apply elem_of_nil in H.
  - intros [Hnot Hnd]%NoDup_cons [[= -> ->]|Hin]%elem_of_cons.
    + now rewrite String.eqb_refl.
    + destruct (String.eqb_spec k k0) as [->|Hne]; [|now apply IH].
      exfalso. apply Hnot. apply list_elem_of_fmap. now exists (k0, v).
Qed.

Section Groups.
Context {A : Type} (emp : A → string) (amount : A → Js.number).

Lemma rowsOf_snoc (k : string) (rows : list A) (r : A) :
  rowsOf emp k (rows ++ [r])
  = (rowsOf emp k rows ++ if String.eqb (emp r) k then [r] else [])%list.
Proof. unfold rowsOf. rewrite List.filter_app. simpl. now destruct (String.eqb _ _). Qed.

Lemma accumulate_groupOk (m : list (string * Agg)) (rows : list A) (r : A) :
  Js.isFinite (amount r) = true →
  (∀ k, groupOk emp amount m rows k) →
  ∀ k, groupOk emp amount (accumulate m (emp r) (amount r)) (rows ++ [r])%list k.
Proof.
  intros Hfin Hm k. specialize (Hm k). unfold groupOk in *.
  unfold accumulate. rewrite rowsOf_snoc.
  destruct (String.eqb_spec (emp r) k) as [<-|Hne].
  - rewrite JsMapFacts.get_set_eq. cbn [count total].
    destruct (amount r) as [| |q] eqn:Eq; try discriminate Hfin.
    destruct (JsMap.get (emp r) m) as [a|]; simpl.
    + destruct Hm as (Hc & H1 & t & Ht & Heq).
      rewrite length_app, Hc, Ht. simpl. split; [lia|]. split; [lia|].
      exists (t + q)%Q. split; [reflexivity|].
      unfold amountsOf in *. rewrite map_app, qsum_app, Heq. simpl.
      rewrite Eq. simpl. lra.
    + rewrite Hm. simpl. split; [reflexivity|]. split; [lia|].
      exists (0 + q)%Q. split; [reflexivity|].
      unfold amountsOf. simpl. rewrite Eq. simpl. lra.
  - rewrite JsMapFacts.get_set_ne by congruence. now rewrite app_nil_r.
Qed.

Lemma byEmployee_groupOk (rows : list A) :
  (∀ r, r ∈ rows → Js.isFinite (amount r) = true) →
  ∀ k, groupOk emp amount (byEmployee emp amount rows) rows k.
Proof.
  unfold byEmployee. intros Hfin.
  assert (G : ∀ pre m, (∀ k, groupOk emp amount m pre k) →
                ∀ k, groupOk emp amount
                       (fold_left (fun m r => accumulate m (emp r) (amount r)) rows m)
                       (pre ++ rows)%list k).
  { induction rows as [|r rows IH]; intros pre m Hm k; simpl.
    - now rewrite app_nil_r.
    - change (pre ++ r :: rows)%list with (pre ++ [r] ++ rows)%list.
      rewrite app_assoc. apply IH.
      + intros r' Hr'. apply Hfin. now right.
      + apply accumulate_groupOk; [apply Hfin; left|exact Hm]. }
  intros k. apply (G [] []). intros k'. reflexivity.
Qed.

Lemma byEmployee_NoDup (rows : list A) :
  NoDup (JsMap.keys (byEmployee emp amount rows)).
Proof.
  unfold byEmployee.
  assert (G : ∀ m, NoDup (JsMap.keys m) →
                NoDup (JsMap.keys (fold_left
                  (fun m r => accumulate m (emp r) (amount r)) rows m))).
  { induction rows as [|r rows IH]; intros m Hm; simpl; [exact Hm|].
    apply IH. unfold accumulate. now apply JsMapFacts.keys_set_NoDup. }
  apply G. constructor.
Qed.
End Groups.

Lemma owedRows_finite (EXCLUDED_LOCATIONS : gset string)
    (parsed : list (list (string * jsval))) (o : OwedShift) :
  o ∈ owedRows EXCLUDED_LOCATIONS parsed → Js.isFinite (amount_owed o) = true.
Proof. rewrite owedRows_eq. apply owedOf_amount_finite. Qed.

Lemma summary_row_origin (localeCompare : string → string → Z)
    (EXCLUDED_LOCATIONS : gset string) (parsed : list (list (string * jsval)))
    (row : Summary) :
  row ∈ summaryRows (computePayout localeCompare EXCLUDED_LOCATIONS parsed) →
  ∃ a, row = toSummary (Employee row, a)
       ∧ JsMap.get (Employee row)
           (byEmployee (fun r : OwedShift => employee r) amount_owed
                       (owedRows EXCLUDED_LOCATIONS parsed)) = Some a.
Proof.
  unfold computePayout. rewrite aggregate_summary_perm.
  intros ([k a] & -> & Hin)%list_elem_of_fmap. exists a. split; [reflexivity|].
  apply get_of_elem; [apply byEmployee_NoDup|exact Hin].
Qed.

(** X10. Each summary row is the group of its employee: its shift count is
    the number of owed rows of that employee, and its total is the sum of
    their amounts owed. *)
Theorem summary_row_is_group (localeCompare : string → string → Z)
    (EXCLUDED_LOCATIONS : gset string) (parsed : list (list (string * jsval)))
    (row : Summary)
    (Hrow : row ∈ summaryRows (computePayout localeCompare EXCLUDED_LOCATIONS parsed)) :
  let mine := rowsOf (fun o : OwedShift => employee o) (Employee row)
                     (owedRows EXCLUDED_LOCATIONS parsed) in
  ShiftsThatWereOwed row = length mine
  ∧ Js.eqb (TotalAmountOwed row) (sumOf amount_owed mine) = true.
Proof.
  intros mine.
  destruct (summary_row_origin _ _ _ _ Hrow) as (a & Hr & Hget).
  pose proof (byEmployee_groupOk (fun r : OwedShift => employee r) amount_owed
                (owedRows EXCLUDED_LOCATIONS parsed)
                (owedRows_finite EXCLUDED_LOCATIONS parsed) (Employee row)) as Hok.
  unfold groupOk in Hok. rewrite Hget in Hok.
  destruct Hok as (Hc & _ & t & Ht & Heq).
  rewrite Hr. cbn [ShiftsThatWereOwed TotalAmountOwed toSummary snd].
  split; [exact Hc|].
  destruct (sumOf_finite amount_owed mine) as (q & Hq & Hqe).
  { intros o Ho. apply (owedRows_finite EXCLUDED_LOCATIONS parsed).
    apply list_elem_of_In in Ho. apply filter_In in Ho as [Ho _].
    now apply list_elem_of_In. }
  rewrite Ht, Hq. simpl. apply Qeq_bool_iff. now rewrite Heq, Hqe.
Qed.









(** X14. There is exactly one summary row per employee that has an owed row:
    the employees of the summary rows are pairwise distinct, and they are the
    employees of the owed rows. *)
Theorem one_summary_row_per_employee (localeCompare : string → string → Z)
    (EXCLUDED_LOCATIONS : gset string) (parsed : list (list (string * jsval))) :
  let rep := computePayout localeCompare EXCLUDED_LOCATIONS parsed in
  NoDup (map Employee (summaryRows rep))
  ∧ (∀ e, e ∈ map Employee (summaryRows rep)
          ↔ e ∈ map (fun o : OwedShift => employee o)
                    (owedRows EXCLUDED_LOCATIONS parsed)).
Proof.
  intros rep. unfold rep, computePayout.
  set (owed := owedRows EXCLUDED_LOCATIONS parsed).
  set (m := byEmployee (fun r : OwedShift => employee r) amount_owed owed).
  assert (Hperm : map Employee (summaryRows (aggregate localeCompare
                    (fun r : OwedShift => employee r) amount_owed owed))
                  ≡ₚ JsMap.keys m).
  { rewrite aggregate_summary_perm. fold m. rewrite map_map. reflexivity. }
  split.
  - rewrite Hperm. apply byEmployee_NoDup.
  - intros e. rewrite Hperm.
    pose proof (byEmployee_groupOk (fun r : OwedShift => employee r) amount_owed
                  owed (owedRows_finite EXCLUDED_LOCATIONS parsed) e) as Hok.
    unfold groupOk in Hok. fold m in Hok. split.
    + intros He. apply (byEmployee_keys _ amount_owed) in He as (o & Ho & <-).
      apply list_elem_of_fmap. now exists o.
    + intros (o & -> & Ho)%list_elem_of_fmap.
      destruct (JsMap.get (employee o) m) eqn:E.
      * apply JsMapFacts.get_Some_elem in E. unfold JsMap.keys.
        apply list_elem_of_fmap. now exists (employee o, a).
      * exfalso. assert (Hin : o ∈ rowsOf (fun r : OwedShift => employee r)
                                      (employee o) owed).
        { apply list_elem_of_In, filter_In. split; [now apply list_elem_of_In|].
          apply String.eqb_refl. }
        rewrite Hok in Hin. now apply elem_of_nil in Hin.
Qed.

(** *** Order *)

Section Sorted.
Context {A : Type} (compare : A → A → Z).
Hypothesis compare_flip : ∀ x y, (0 < compare x y)%Z → (compare y x <= 0)%Z.

Lemma insertSorted_sorted (x : A) (l : list A) :
  sortedBy compare l → sortedBy compare (insertSorted compare x l).
Proof.
  induction l as [|y l IH]; [simpl; trivial|].
  intros Hs. cbn [insertSorted].
  destruct (Z.leb_spec (compare x y) 0) as [Hle|Hgt].
  - split; assumption.
  - destruct l as [|z l].
    + simpl. split; [now apply compare_flip|trivial].
    + destruct Hs as [Hyz Hs]. specialize (IH Hs). cbn [insertSorted] in *.
      destruct (compare x z <=? 0)%Z.
      * split; [now apply compare_flip|exact IH].
      * split; [exact Hyz|exact IH].
Qed.

Lemma sortBy_sorted (l : list A) : sortedBy compare (sortBy compare l).
Proof.
  induction l as [|x l IH]; [simpl; trivial|].
  simpl. now apply insertSorted_sorted.
Qed.
End Sorted.

(** X15. When the comparator never puts two names each strictly after the
    other, the summary rows of both payout reports come out in ascending order
    of employee, and the locations offered by the report by location in
    ascending order. *)
Theorem payout_reports_are_sorted (localeCompare : string → string → Z)
    (EXCLUDED_LOCATIONS : gset string) (parsed : list (list (string * jsval)))
    (Hflip : ∀ a b, (0 < localeCompare a b)%Z → (localeCompare b a <= 0)%Z) :
  sortedBy (fun a b => localeCompare (Employee a) (Employee b))
           (summaryRows (computePayout localeCompare EXCLUDED_LOCATIONS parsed))
  ∧ sortedBy (fun a b => localeCompare (Employee a) (Employee b))
             (summaryRows (Locations.report (Locations.POST localeCompare parsed)))
  ∧ sortedBy localeCompare
             (Locations.dataLocations (Locations.POST localeCompare parsed)).
Proof.
  split; [|split].
  - apply sortBy_sorted. intros x y. apply Hflip.
  - apply sortBy_sorted. intros x y. apply Hflip.
  - apply sortBy_sorted. exact Hflip.
Qed.

(** *** Rows are handled one by one *)

Lemma filter_all {A : Type} (p : A → bool) (l : list A) :
  (∀ x, x ∈ l → p x = true) → List.filter p l = l.
Proof.
  induction l as [|x l IH]; intros H; simpl; [reflexivity|].
  rewrite (H x) by left. f_equal. apply IH. intros y Hy. apply H. now right.
Qed.

Lemma filter_none {A : Type} (p : A → bool) (l : list A) :
  (∀ x, x ∈ l → p x = false) → List.filter p l = [].
Proof.
  induction l as [|x l IH]; intros H; simpl; [reflexivity|].
  rewrite (H x) by left. apply IH. intros y Hy. apply H. now right.
Qed.

(** X16. The owed rows of a file are those of its first part followed by
    those of the rest: a row never changes what another row yields. So the
    number of owed shifts of the whole is the sum over the parts, and the
    same holds for the snapshot of the report by location. *)
Theorem owed_rows_of_concatenation (localeCompare : string → string → Z)
    (EXCLUDED_LOCATIONS : gset string) (a b : list (list (string * jsval))) :
  owedRows EXCLUDED_LOCATIONS (a ++ b)
  = (owedRows EXCLUDED_LOCATIONS a ++ owedRows EXCLUDED_LOCATIONS b)%list
  ∧ Locations.clientRows (a ++ b)
    = (Locations.clientRows a ++ Locations.clientRows b)%list
  ∧ totalShifts (computePayout localeCompare EXCLUDED_LOCATIONS (a ++ b))
    = totalShifts (computePayout localeCompare EXCLUDED_LOCATIONS a)
      + totalShifts (computePayout localeCompare EXCLUDED_LOCATIONS b).
Proof.
  assert (H : owedRows EXCLUDED_LOCATIONS (a ++ b)
              = (owedRows EXCLUDED_LOCATIONS a ++ owedRows EXCLUDED_LOCATIONS b)%list).
  { rewrite !owedRows_eq. now rewrite map_app, List.filter_app, map_app. }
  split; [exact H|]. split.
  - rewrite !clientRows_eq. now rewrite map_app, List.filter_app, !map_app.
  - unfold computePayout, aggregate. cbn [totalShifts].
    now rewrite H, length_app.
Qed.

(** X17. The first report of the page by location is the flat engine run
    with no excluded location. Re-aggregating its snapshot with every offered
    location selected gives that report again, and with no location selected
    the empty report with zero totals. *)
Theorem by_location_report_composes (localeCompare : string → string → Z)
    (parsed : list (list (string * jsval))) :
  let page := Locations.POST localeCompare parsed in
  Locations.report page = computePayout localeCompare ∅ parsed
  ∧ reaggregate localeCompare (list_to_set (Locations.dataLocations page))
                (Locations.dataRows page)
    = Locations.report page
  ∧ reaggregate localeCompare ∅ (Locations.dataRows page)
    = {| summaryRows := []; totalAmount := Js.Finite 0; totalShifts := 0;
         totalAvg := Js.Finite 0 |}.
Proof.
  intros page. unfold page. cbn [Locations.POST Locations.report Locations.dataRows
    Locations.dataLocations]. split; [|split].
  - unfold computePayout. rewrite owedRows_eq, clientRows_eq, !aggregate_map.
    cbn [Locations.employee Locations.amountOwed Locations.toClientRow].
    reflexivity.
  - unfold reaggregate. rewrite filter_all; [reflexivity|].
    intros r Hr. apply bool_decide_eq_true. apply elem_of_list_to_set.
    unfold Locations.allLocations. apply elem_of_sortBy, elem_of_distinct.
    apply list_elem_of_fmap. now exists r.
  - unfold reaggregate. rewrite filter_none; [reflexivity|].
    intros r _. apply bool_decide_eq_false. apply not_elem_of_empty.
Qed.

(** X18. A file without any usable row, because every row is filtered out or
    has [cost] not above [tips], gives the empty report with zero totals; in
    particular the empty file does. *)
Theorem no_usable_row_gives_empty_report (localeCompare : string → string → Z)
    (EXCLUDED_LOCATIONS : gset string) (parsed : list (list (string * jsval)))
    (Hnone : ∀ raw, raw ∈ parsed →
               keepRow EXCLUDED_LOCATIONS (normalizeRowKeys raw) = false
               ∨ Js.gt (money (normalizeRowKeys raw) "cost")
                       (money (normalizeRowKeys raw) "tips") = false) :
  computePayout localeCompare EXCLUDED_LOCATIONS parsed
  = {| summaryRows := []; totalAmount := Js.Finite 0; totalShifts := 0;
       totalAvg := Js.Finite 0 |}.
Proof.
  unfold computePayout. rewrite owedRows_eq, filter_none; [reflexivity|].
  intros r (raw & -> & Hraw)%list_elem_of_fmap.
  destruct (Hnone raw Hraw) as [H|H].
  - now rewrite H.
  - unfold owes. rewrite H. apply andb_false_r.
Qed.

Lemma distinct_NoDup (l : list string) : NoDup (distinct l).
Proof.
  unfold distinct.
  assert (G : ∀ acc, NoDup acc →
                NoDup (fold_left (fun acc x => if bool_decide (x ∈ acc) then acc
                                               else (acc ++ [x])%list) l acc)).
  { induction l as [|x l IH]; intros acc Hacc; simpl; [exact Hacc|].
    apply IH. case_bool_decide as Hx; [exact Hacc|].
    apply NoDup_app. split; [exact Hacc|]. split; [|apply NoDup_singleton].
    intros y Hy ->%list_elem_of_singleton. contradiction. }
  apply G. constructor.
Qed.

(** X19. The locations offered by the report by location are pairwise
    distinct, and they are exactly the locations of the rows of the
    snapshot. *)
Theorem offered_locations (localeCompare : string → string → Z)
    (parsed : list (list (string * jsval))) :
  let page := Locations.POST localeCompare parsed in
  NoDup (Locations.dataLocations page)
  ∧ (∀ l, l ∈ Locations.dataLocations page
          ↔ l ∈ map Locations.location (Locations.dataRows page)).
Proof.
  intros page. unfold page. cbn [Locations.POST Locations.dataRows
    Locations.dataLocations]. unfold Locations.allLocations. split.
  - rewrite sortBy_perm. apply distinct_NoDup.
  - intros l. now rewrite elem_of_sortBy, elem_of_distinct.
Qed.

End PayoutMore.

(** ** The payout handlers over binary64 numbers *)

Module Binary64Facts.
Import SortSpec Binary64 Binary64Spec.

Lemma sum_snoc (l : list number) (x : number) :
  sum (l ++ [x])%list = (sum l + x)%float.
Proof. unfold sum. now rewrite fold_left_app. Qed.

Lemma sumOf_sum {A : Type} (amount : A → number) (rows : list A) :
  sumOf amount rows = sum (map amount rows).
Proof.
  unfold sumOf, sum. generalize 0%float.
  induction rows as [|r rows IH]; intros a; simpl; [reflexivity|apply IH].
Qed.

(** *** Owed rows *)

Lemma rounded_source_withBonus (rows : list ShiftRecord) :
  source (withBonus rows)
  = map (fun row => addOwed (addBonus row))
        (List.filter (fun row => (tips row <? cost row)%float) rows).
Proof.
  unfold source, withBonus.
  induction rows as [|row rows IH]; simpl; [reflexivity|].
  destruct (tips row <? cost row)%float; simpl; now rewrite IH.
Qed.

Lemma owedRows_included (keepRow : gmap string string → bool)
    (parsed : list (list (string * jsval))) :
  owedRows keepRow parsed = included keepRow parsed.
Proof.
  unfold owedRows, included. rewrite rounded_source_withBonus.
  induction (map normalizeRowKeys parsed) as [|r rows IH]; simpl; [reflexivity|].
  destruct (keepRow r); simpl; [|exact IH].
  unfold owes at 1. change (cost (toShift r)) with (money r "cost").
  change (tips (toShift r)) with (money r "tips").
  destruct (money r "tips" <? money r "cost")%float; simpl; now rewrite IH.
Qed.

(** *** Grouping *)

Lemma rounded_accumulate_cons (e : string * Agg) (m : list (string * Agg))
    (emp : string) (amount : number) :
  emp ≠ e.1 → accumulate (e :: m) emp amount = e :: accumulate m emp amount.
Proof.
  intros Hne. destruct e as [k a]. unfold accumulate. simpl.
  destruct (String.eqb_spec emp k); [contradiction|reflexivity].
Qed.

Lemma rounded_accumulate_count (m : list (string * Agg)) (emp : string) (amount : number) :
  list_sum (map (fun e => count e.2) (accumulate m emp amount))
  = list_sum (map (fun e => count e.2) m) + 1.
Proof.
  induction m as [|[k a] m IH].
  - reflexivity.
  - destruct (decide (emp = k)) as [->|Hne].
    + unfold accumulate. simpl. rewrite String.eqb_refl. simpl. lia.
    + rewrite rounded_accumulate_cons by exact Hne. simpl. rewrite IH. lia.
Qed.

Section Grouping.
Context {A : Type} (emp : A → string) (amount : A → number).

Lemma rounded_byEmployee_count (rows : list A) :
  list_sum (map (fun e => count e.2) (byEmployee emp amount rows)) = length rows.
Proof.
  unfold byEmployee.
  assert (G : ∀ m, list_sum (map (fun e => count e.2)
                     (fold_left (fun m r => accumulate m (emp r) (amount r)) rows m))
                   = list_sum (map (fun e => count e.2) m) + length rows).
  { induction rows as [|r rows IH]; intros m; simpl; [lia|].
    rewrite IH, rounded_accumulate_count. lia. }
  now rewrite G.
Qed.

Lemma rounded_byEmployee_NoDup (rows : list A) :
  NoDup (JsMap.keys (byEmployee emp amount rows)).
Proof.
  unfold byEmployee.
  assert (G : ∀ m, NoDup (JsMap.keys m) →
                NoDup (JsMap.keys
                  (fold_left (fun m r => accumulate m (emp r) (amount r)) rows m))).
  { induction rows as [|r rows IH]; intros m Hm; simpl; [exact Hm|].
    apply IH. unfold accumulate. now apply JsMapFacts.keys_set_NoDup. }
  apply G. apply NoDup_nil_2.
Qed.

Lemma rounded_accumulate_groupOk (m : list (string * Agg)) (rows : list A) (r : A) :
  (∀ k, groupOk emp amount m rows k) →
  ∀ k, groupOk emp amount (accumulate m (emp r) (amount r)) (rows ++ [r])%list k.
Proof.
  intros Hm k. specialize (Hm k). unfold groupOk in *.
  unfold accumulate. rewrite PayoutMore.rowsOf_snoc.
  destruct (String.eqb_spec (emp r) k) as [<-|Hne].
  - rewrite JsMapFacts.get_set_eq. cbn [count total].
    split; [intros [_ [=]]%app_eq_nil|].
    rewrite length_app, map_app. cbn [length map]. rewrite sum_snoc.
    destruct (JsMap.get (emp r) m) as [a|]; cbn [default].
    + destruct Hm as (_ & Hc & Ht). rewrite <- Hc, <- Ht. now split.
    + rewrite Hm. split; reflexivity.
  - rewrite JsMapFacts.get_set_ne by congruence. now rewrite app_nil_r.
Qed.

Lemma rounded_byEmployee_groupOk (rows : list A) (k : string) :
  groupOk emp amount (byEmployee emp amount rows) rows k.
Proof.
  unfold byEmployee.
  assert (G : ∀ pre m, (∀ k, groupOk emp amount m pre k) →
                ∀ k, groupOk emp amount
                       (fold_left (fun m r => accumulate m (emp r) (amount r)) rows m)
                       (pre ++ rows)%list k).
  { induction rows as [|r rows IH]; intros pre m Hm k'; simpl.
    - now rewrite app_nil_r.
    - change (pre ++ r :: rows)%list with (pre ++ [r] ++ rows)%list.
      rewrite app_assoc. apply IH. now apply rounded_accumulate_groupOk. }
  apply (G [] []). intros k'. reflexivity.
Qed.

(** *** Aggregation *)

Lemma aggregate_reportOf (localeCompare : string → string → Z) (rows : list A) :
  reportOf emp amount rows (aggregate localeCompare emp amount rows).
Proof.
  assert (Hperm : summaryRows (aggregate localeCompare emp amount rows)
                  ≡ₚ map toSummary (byEmployee emp amount rows))
    by apply sortBy_perm.
  assert (Hkeys : map Employee (summaryRows (aggregate localeCompare emp amount rows))
                  ≡ₚ JsMap.keys (byEmployee emp amount rows)).
  { rewrite Hperm, map_map. reflexivity. }
  unfold reportOf. repeat apply conj.
  - rewrite (PayoutFacts.list_sum_perm _
               (map ShiftsThatWereOwed (map toSummary (byEmployee emp amount rows))))
      by now apply Permutation_map.
    rewrite map_map. cbn [totalShifts aggregate]. apply rounded_byEmployee_count.
  - reflexivity.
  - apply sumOf_sum.
  - cbn [totalAvg aggregate]. unfold average. rewrite sumOf_sum.
    now destruct rows.
  - rewrite Hkeys. apply rounded_byEmployee_NoDup.
  - intros r Hr. rewrite Hkeys.
    pose proof (rounded_byEmployee_groupOk rows (emp r)) as Hg. unfold groupOk in Hg.
    destruct (JsMap.get (emp r) (byEmployee emp amount rows)) as [a|] eqn:E.
    + apply JsMapFacts.get_Some_elem in E. unfold JsMap.keys.
      apply list_elem_of_fmap. now exists (emp r, a).
    + exfalso. assert (Hin : r ∈ rowsOf emp (emp r) rows).
      { apply list_elem_of_In, filter_In. split; [now apply list_elem_of_In|].
        apply String.eqb_refl. }
      rewrite Hg in Hin. now apply elem_of_nil in Hin.
  - intros row Hrow. rewrite Hperm in Hrow.
    apply list_elem_of_fmap in Hrow as ([k a] & -> & He).
    apply (PayoutMore.get_of_elem _ _ _ (rounded_byEmployee_NoDup rows)) in He.
    pose proof (rounded_byEmployee_groupOk rows k) as Hg. unfold groupOk in Hg.
    rewrite He in Hg. exact Hg.
Qed.
End Grouping.

(** C3, as stated, fails. Three shifts owe 26.7, 15.5 and 32.1 dollars to
    Ann, Bob and Ann. The overall amount adds them in the order of the file
    and is 74.30000000000001; the summary rows hold 58.8 for Ann and 15.5 for
    Bob, which add up to 74.3, in either order. The report by location
    gives the same numbers. *)
Lemma summary_totals_differ_from_overall_total :
  let flat := Binary64.Calculate.POST codeUnitCompare Examples.centsPayroll in
  let page := Binary64.Locations.POST codeUnitCompare Examples.centsPayroll in
  map amount_owed
      (owedRows (Payout.keepRow Calculate.EXCLUDED_LOCATIONS) Examples.centsPayroll)
  = [26.7; 15.5; 32.1]%float
  ∧ map (fun row => (Employee row, TotalAmountOwed row)) (summaryRows flat)
    = [("Ann", 58.8%float); ("Bob", 15.5%float)]
  ∧ totalAmount flat = 74.30000000000001%float
  ∧ sum (map TotalAmountOwed (summaryRows flat)) = 74.3%float
  ∧ sum (rev (map TotalAmountOwed (summaryRows flat))) = 74.3%float
  ∧ (sum (map TotalAmountOwed (summaryRows flat)) =? totalAmount flat)%float = false
  ∧ page = flat.
Proof. repeat split; vm_compute; reflexivity. Qed.

(** C3, amended. For every input, in the flat report and in the report by
    location: the shift counts of the summary rows add up to the overall
    number of shifts, which is the number of owed rows; the overall amount is
    the sum of the amounts of all owed rows in the order of the file, and the
    overall average is that amount divided by that number, not a sum of
    averages; there is one summary row per employee with an owed row, and its
    total is the sum of that employee's amounts in the order of the file. So
    the totals of the summary rows and the overall amount add up the same
    amounts, each once, in two different orders: they agree up to the
    rounding of the additions, not exactly. *)
Theorem payout_totals_add_the_same_amounts (localeCompare : string → string → Z)
    (parsed : list (list (string * jsval))) :
  reportOf (fun r : OwedShift => employee r) amount_owed
    (included (Payout.keepRow Calculate.EXCLUDED_LOCATIONS) parsed)
    (Binary64.Calculate.POST localeCompare parsed)
  ∧ reportOf Binary64.Locations.employee Binary64.Locations.amountOwed
      (map Binary64.Locations.toClientRow (included Locations.keepRow parsed))
      (Binary64.Locations.POST localeCompare parsed).
Proof.
  split.
  - unfold Binary64.Calculate.POST. rewrite owedRows_included.
    apply aggregate_reportOf.
  - unfold Binary64.Locations.POST, Binary64.Locations.clientRows.
    rewrite owedRows_included. apply aggregate_reportOf.
Qed.

End Binary64Facts.

(** ** More on the reconciliation engine *)

Module CrossrefMore.
Import Crossref CrossrefSpec CrossrefFacts SortSpec.

Lemma hasProperty_spec (row : gmap string string) (name : string) :
  hasProperty row name = true ↔ is_Some (row !! name) ∨ name ∈ objectPrototype.
Proof.
  unfold hasProperty. rewrite orb_true_iff, !bool_decide_eq_true. reflexivity.
Qed.

Lemma hasProperty_false (row : gmap string string) (name : string) :
  hasProperty row name = false ↔ row !! name = None ∧ name ∉ objectPrototype.
Proof.
  unfold hasProperty. rewrite orb_false_iff, !bool_decide_eq_false.
  now rewrite eq_None_not_Some.
Qed.

Lemma candidates_not_inherited (c : string) :
  c ∈ (SCHEDULED_START_CANDIDATES ++ SCHEDULED_END_CANDIDATES)%list →
  c ∉ objectPrototype.
Proof.
  intros Hc Hp.
  assert (H : bool_decide (c ∈ objectPrototype) = true)
    by now apply bool_decide_eq_true.
  apply list_elem_of_In in Hc.
  repeat (destruct Hc as [<-|Hc]; [vm_compute in H; discriminate|]).
  destruct Hc.
Qed.

(** X20. [findFirstExistingColumn] returns the first candidate, in the order
    of the list, that is a property of the row, be it a column of the row or
    a name inherited from [Object.prototype], and [null] exactly when no
    candidate is one. The handler's two candidate lists hold no inherited
    name, so a column detected from them is a column of the row. *)
Theorem findFirstExistingColumn_first (row : gmap string string)
    (candidates : list string) :
  match findFirstExistingColumn row candidates with
  | Some c =>
      ∃ before after, candidates = (before ++ c :: after)%list
                      ∧ (is_Some (row !! c) ∨ c ∈ objectPrototype)
                      ∧ ∀ b, b ∈ before → row !! b = None ∧ b ∉ objectPrototype
  | None => ∀ c, c ∈ candidates → row !! c = None ∧ c ∉ objectPrototype
  end
  ∧ (∀ c, findFirstExistingColumn row SCHEDULED_START_CANDIDATES = Some c
          ∨ findFirstExistingColumn row SCHEDULED_END_CANDIDATES = Some c →
          is_Some (row !! c)).
Proof.
  split.
  - unfold findFirstExistingColumn.
    induction candidates as [|c cs IH]; simpl.
    + intros c Hc. now apply elem_of_nil in Hc.
    + destruct (hasProperty row c) eqn:Hc.
      * exists [], cs. split; [reflexivity|].
        split; [now apply hasProperty_spec|].
        intros b Hb. now apply elem_of_nil in Hb.
      * apply hasProperty_false in Hc.
        destruct (find _ cs) as [c'|].
        -- destruct IH as (before & after & -> & Hsome & Hbefore).
           exists (c :: before), after. split; [reflexivity|].
           split; [exact Hsome|].
           intros b [->|Hb]%elem_of_cons; [exact Hc|now apply Hbefore].
        -- intros c' [->|Hc']%elem_of_cons; [exact Hc|now apply IH].
  - intros c Hc.
    assert (Hfound : c ∈ (SCHEDULED_START_CANDIDATES ++ SCHEDULED_END_CANDIDATES)%list
                     ∧ hasProperty row c = true).
    { unfold findFirstExistingColumn in Hc.
      destruct Hc as [[Hin Hp]%find_some | [Hin Hp]%find_some];
        (split; [|exact Hp]); apply elem_of_app; [left|right];
        now apply list_elem_of_In. }
    destruct Hfound as [Hin Hp].
    apply hasProperty_spec in Hp as [Hown|Hinh]; [exact Hown|].
    now apply candidates_not_inherited in Hin.
Qed.

(** *** The rows of the table *)

Lemma tableRows_reported (localeCompare : string → string → Z)
    (scheduledParsed timesheetsParsed : list (list (string * jsval))) :
  let filteredScheduled := List.filter keepRow (map normalizeRowKeys scheduledParsed) in
  let filteredTimesheets := List.filter keepRow (map normalizeRowKeys timesheetsParsed) in
  tableRows localeCompare
    (missedByEmployee (reconcile scheduledParsed timesheetsParsed))
  ≡ₚ map (recordOf (probe SCHEDULED_START_CANDIDATES filteredScheduled)
                   (probe SCHEDULED_END_CANDIDATES filteredScheduled))
         (List.filter (isMissed (workedSet filteredTimesheets)) filteredScheduled).
Proof.
  intros fs ft.
  destruct (reconcile_spec scheduledParsed timesheetsParsed) as (Hf & _ & Hn).
  rewrite (tableRows_perm localeCompare _ Hn). exact Hf.
Qed.

Lemma notIgnored_truthy (ignored : gset string) (v : string) :
  v ≠ "" → notIgnored ignored (Some v) = true → Js.toLowerCase v ∉ ignored.
Proof.
  unfold notIgnored. simpl. intros Hv.
  destruct (String.eqb_spec v ""); [contradiction|]. simpl.
  intros H%negb_true_iff. now apply bool_decide_eq_false in H.
Qed.

Lemma probe_nonempty (candidates : list string)
    (rows : list (gmap string string)) (c : string) :
  forallb (fun c => negb (String.eqb c "")) candidates = true →
  probe candidates rows = Some c → truthy (Some c) = true.
Proof.
  intros Hall. unfold probe, findFirstExistingColumn.
  destruct rows as [|first _]; [discriminate|].
  intros [Hin _]%find_some. simpl.
  rewrite forallb_forall in Hall. now apply Hall.
Qed.

(** X21. Every row of the missed-shift table is well formed and is not
    ignored: its employee, date and location are non-empty, its employee and
    location are not on the ignore lists in any letter case, and it carries
    start and end times exactly when both a start and an end column were
    detected in the scheduled file. *)
Theorem table_rows_are_well_formed (localeCompare : string → string → Z)
    (scheduledParsed timesheetsParsed : list (list (string * jsval)))
    (emp : string) (entry : Entry)
    (Hrow : (emp, entry) ∈ tableRows localeCompare
              (missedByEmployee (reconcile scheduledParsed timesheetsParsed))) :
  let filteredScheduled := List.filter keepRow (map normalizeRowKeys scheduledParsed) in
  (emp ≠ "")
  ∧ (Js.toLowerCase emp ∉ IGNORED_EMPLOYEES)
  ∧ (∃ d l, date entry = Some d ∧ d ≠ ""
            ∧ location entry = Some l ∧ l ≠ ""
            ∧ Js.toLowerCase l ∉ IGNORED_LOCATIONS)
  ∧ (is_Some (startEnd entry)
     ↔ is_Some (probe SCHEDULED_START_CANDIDATES filteredScheduled)
       ∧ is_Some (probe SCHEDULED_END_CANDIDATES filteredScheduled)).
Proof.
  intros fs. rewrite tableRows_reported in Hrow. fold fs in Hrow.
  apply list_elem_of_fmap in Hrow as (r & Heq & Hr).
  apply list_elem_of_In, filter_In in Hr as [Hr Hm].
  apply filter_In in Hr as [_ Hkeep].
  unfold isMissed in Hm. apply andb_true_iff in Hm as [Hkey _].
  apply hasKeyColumns_spec in Hkey as (He & Hd & Hl).
  apply truthy_Some in He as (e & He & Hene), Hd as (d & Hd & Hdne),
    Hl as (l & Hl & Hlne).
  unfold recordOf in Heq. injection Heq as -> ->.
  unfold keepRow in Hkeep. rewrite He, Hl in Hkeep.
  apply andb_true_iff in Hkeep as [Hke Hkl].
  rewrite He. change (interpolate (Some e)) with e.
  split; [exact Hene|]. split; [now apply notIgnored_truthy|]. split.
  - exists d, l. cbn [makeEntry date location]. rewrite Hd, Hl.
    repeat split; try assumption. now apply notIgnored_truthy.
  - cbn [makeEntry startEnd].
    destruct (probe SCHEDULED_START_CANDIDATES fs) as [sc|] eqn:Es;
      destruct (probe SCHEDULED_END_CANDIDATES fs) as [ec|] eqn:Ee.
    + apply probe_nonempty in Es; [|reflexivity].
      apply probe_nonempty in Ee; [|reflexivity].
      rewrite Es, Ee. cbn [andb]. split; [intros _; split; eauto|eauto].
    + split; [intros [? [=]]|intros [_ [? [=]]]].
    + split; [intros [? [=]]|intros [[? [=]] _]].
    + split; [intros [? [=]]|intros [[? [=]] _]].
Qed.

(** *** The timesheets as a set; counts *)

Lemma reconcile_count (scheduledParsed timesheetsParsed : list (list (string * jsval))) :
  missedCount (reconcile scheduledParsed timesheetsParsed)
  = length (List.filter
              (isMissed (workedSet (List.filter keepRow
                                      (map normalizeRowKeys timesheetsParsed))))
              (List.filter keepRow (map normalizeRowKeys scheduledParsed))).
Proof. now destruct (reconcile_spec scheduledParsed timesheetsParsed) as (_ & H & _). Qed.

Lemma workedSet_mono (ts ts' : list (list (string * jsval))) :
  (∀ x, x ∈ ts → x ∈ ts') →
  workedSet (List.filter keepRow (map normalizeRowKeys ts))
  ⊆ workedSet (List.filter keepRow (map normalizeRowKeys ts')).
Proof.
  intros Hsub key. rewrite !elem_of_workedSet.
  intros (t & [Ht Hk]%list_elem_of_In%filter_In & Hkey & <-).
  exists t. split; [|now split].
  apply list_elem_of_In, filter_In. split; [|exact Hk].
  apply list_elem_of_In. apply list_elem_of_In in Ht.
  apply list_elem_of_fmap in Ht as (raw & -> & Hraw).
  apply list_elem_of_fmap. exists raw. split; [reflexivity|now apply Hsub].
Qed.

(** X22. Only the set of timesheet rows matters: two timesheet files with the
    same rows, in whatever order and however often repeated, give the same
    result. *)
Theorem timesheets_matter_as_a_set
    (scheduledParsed ts ts' : list (list (string * jsval)))
    (Hsame : ∀ x, x ∈ ts ↔ x ∈ ts') :
  reconcile scheduledParsed ts = reconcile scheduledParsed ts'.
Proof.
  unfold reconcile.
  assert (Hw : workedSet (List.filter keepRow (map normalizeRowKeys ts))
               = workedSet (List.filter keepRow (map normalizeRowKeys ts'))).
  { apply set_eq. intros key. split; apply workedSet_mono; intros x; apply Hsame. }
  now rewrite Hw.
Qed.

Lemma filter_length_mono {A : Type} (p q : A → bool) (l : list A) :
  (∀ x, p x = true → q x = true) →
  (length (List.filter p l) ≤ length (List.filter q l))%nat.
Proof.
  intros H. induction l as [|x l IH]; simpl; [lia|].
  destruct (p x) eqn:Ep.
  - rewrite (H x Ep). simpl. lia.
  - destruct (q x); simpl; lia.
Qed.

(** X23. More timesheet rows never produce more missed shifts: when every row
    of one timesheet file is in another, the second leaves at most as many
    shifts missed as the first. *)
Theorem more_timesheets_fewer_misses
    (scheduledParsed ts ts' : list (list (string * jsval)))
    (Hsub : ∀ x, x ∈ ts → x ∈ ts') :
  (missedCount (reconcile scheduledParsed ts')
   ≤ missedCount (reconcile scheduledParsed ts))%nat.
Proof.
  rewrite !reconcile_count. apply filter_length_mono.
  intros r. unfold isMissed. rewrite !andb_true_iff, !negb_true_iff.
  rewrite !bool_decide_eq_false. intros [Hk Hnot]. split; [exact Hk|].
  intros Hin. apply Hnot. now apply (workedSet_mono ts ts' Hsub).
Qed.

(** X24. The count is additive over the scheduled file: the misses of a file
    are those of its first part plus those of the rest, against the same
    timesheets. So a scheduled row that occurs twice is counted twice. *)
Theorem missed_count_of_concatenation
    (a b timesheetsParsed : list (list (string * jsval))) :
  missedCount (reconcile (a ++ b) timesheetsParsed)
  = missedCount (reconcile a timesheetsParsed)
    + missedCount (reconcile b timesheetsParsed).
Proof.
  rewrite !reconcile_count.
  now rewrite map_app, !List.filter_app, length_app.
Qed.

(** X25. The page saying that every shift has an entry is served exactly when
    each scheduled row that passed the filter and has its three key fields has
    its key among the timesheets; in particular for an empty scheduled
    file. *)
Theorem all_matched_iff (localeCompare : string → string → Z)
    (scheduledParsed timesheetsParsed : list (list (string * jsval))) :
  (POST localeCompare scheduledParsed timesheetsParsed = AllMatched
   ↔ ∀ r, r ∈ List.filter keepRow (map normalizeRowKeys scheduledParsed) →
          hasKeyColumns r = true →
          keyOf r ∈ workedSet (List.filter keepRow
                                 (map normalizeRowKeys timesheetsParsed)))
  ∧ POST localeCompare [] timesheetsParsed = AllMatched.
Proof.
  split; [|reflexivity].
  unfold POST. pose proof (reconcile_count scheduledParsed timesheetsParsed) as Hc.
  set (fs := List.filter keepRow (map normalizeRowKeys scheduledParsed)) in *.
  set (w := workedSet _) in *.
  destruct (Nat.eqb_spec (missedCount (reconcile scheduledParsed timesheetsParsed)) 0)
    as [H0|H0].
  - split; [intros _|reflexivity].
    intros r Hr Hk. rewrite H0 in Hc. symmetry in Hc.
    apply length_zero_iff_nil in Hc.
    destruct (decide (keyOf r ∈ w)) as [Hin|Hnot]; [exact Hin|].
    exfalso. assert (Hm : r ∈ List.filter (isMissed w) fs).
    { apply list_elem_of_In, filter_In. split; [now apply list_elem_of_In|].
      unfold isMissed. rewrite Hk. simpl. apply negb_true_iff.
      now apply bool_decide_eq_false. }
    rewrite Hc in Hm. now apply elem_of_nil in Hm.
  - split; [discriminate|]. intros Hall. exfalso. apply H0. rewrite Hc.
    rewrite PayoutMore.filter_none; [reflexivity|].
    intros r Hr. unfold isMissed.
    destruct (hasKeyColumns r) eqn:Hk; [|reflexivity]. simpl.
    apply negb_false_iff, bool_decide_eq_true. now apply Hall.
Qed.

(** *** The groups *)

Section Groups.
Context (worked : gset string) (startCol endCol : option string).

Lemma visit_group (st : Missed) (r : gmap string string) (emp : string) :
  default [] (JsMap.get emp (missedByEmployee (visit worked startCol endCol st r)))
  = (default [] (JsMap.get emp (missedByEmployee st))
     ++ if isMissed worked r && String.eqb (interpolate (r !! "employee")) emp
        then [makeEntry startCol endCol r] else [])%list.
Proof.
  rewrite visit_spec. destruct (isMissed worked r); simpl; [|now rewrite app_nil_r].
  destruct (String.eqb_spec (interpolate (r !! "employee")) emp) as [<-|Hne].
  - now rewrite JsMapFacts.get_set_eq.
  - rewrite JsMapFacts.get_set_ne by congruence. now rewrite app_nil_r.
Qed.

Lemma loop_group (rows : list (gmap string string)) (st : Missed) (emp : string) :
  default [] (JsMap.get emp
                (missedByEmployee (fold_left (visit worked startCol endCol) rows st)))
  = (default [] (JsMap.get emp (missedByEmployee st))
     ++ map (makeEntry startCol endCol)
            (List.filter (fun r => isMissed worked r
                                   && String.eqb (interpolate (r !! "employee")) emp)
                         rows))%list.
Proof.
  revert st. induction rows as [|r rows IH]; intros st; simpl.
  - now rewrite app_nil_r.
  - rewrite IH, visit_group, <- app_assoc. f_equal.
    now destruct (isMissed worked r && _).
Qed.

Lemma elem_of_set_inv {V : Type} (m : list (string * V)) (k : string) (v : V)
    (e : string * V) :
  e ∈ JsMap.set k v m → e = (k, v) ∨ e ∈ m.
Proof.
  induction m as [|[k0 v0] m IH]; simpl.
  - intros ->%list_elem_of_singleton. now left.
  - destruct (String.eqb k k0).
    + intros [->|H]%elem_of_cons; [now left|right; now right].
    + intros [->|H]%elem_of_cons; [right; left|].
      destruct (IH H) as [->|H']; [now left|right; now right].
Qed.

Lemma loop_groups_nonempty (rows : list (gmap string string)) (st : Missed) :
  (∀ g, g ∈ missedByEmployee st → g.2 ≠ []) →
  ∀ g, g ∈ missedByEmployee (fold_left (visit worked startCol endCol) rows st) →
       g.2 ≠ [].
Proof.
  revert st. induction rows as [|r rows IH]; intros st Hst; simpl; [exact Hst|].
  apply IH. rewrite visit_spec. destruct (isMissed worked r); [|exact Hst].
  simpl. intros g [->|Hg]%elem_of_set_inv; [|now apply Hst].
  simpl. intros H. now apply app_eq_nil in H as [_ [=]].
Qed.
End Groups.

(** X26. The missed shifts of an employee are listed in the order of the
    scheduled file: the group of an employee holds, in file order, one entry
    for each reported scheduled row of that employee, and nothing else. *)
Theorem missed_groups_keep_file_order
    (scheduledParsed timesheetsParsed : list (list (string * jsval)))
    (emp : string) :
  let filteredScheduled := List.filter keepRow (map normalizeRowKeys scheduledParsed) in
  let filteredTimesheets := List.filter keepRow (map normalizeRowKeys timesheetsParsed) in
  default [] (JsMap.get emp
                (missedByEmployee (reconcile scheduledParsed timesheetsParsed)))
  = map (makeEntry (probe SCHEDULED_START_CANDIDATES filteredScheduled)
                   (probe SCHEDULED_END_CANDIDATES filteredScheduled))
        (List.filter
           (fun r => hasKeyColumns r
                     && negb (bool_decide (keyOf r ∈ workedSet filteredTimesheets))
                     && String.eqb (interpolate (r !! "employee")) emp)
           filteredScheduled).
Proof.
  intros fs ft. unfold reconcile. fold fs ft. now rewrite loop_group.
Qed.

(** X27. In the report, the number of employees with missed shifts is the
    number of different employees in the table, it is at least 1 and at most
    the total, and no employee is listed with an empty group. *)
Theorem employee_count_is_distinct_employees (localeCompare : string → string → Z)
    (scheduledParsed timesheetsParsed : list (list (string * jsval))) :
  (∀ g, g ∈ missedByEmployee (reconcile scheduledParsed timesheetsParsed) →
        g.2 ≠ [])
  ∧ match POST localeCompare scheduledParsed timesheetsParsed with
    | AllMatched => True
    | MissedShifts total employees rows =>
        employees = size (list_to_set (map fst rows) : gset string)
        ∧ (1 ≤ employees)%nat ∧ (employees ≤ total)%nat
    end.
Proof.
  set (st := reconcile scheduledParsed timesheetsParsed).
  assert (Hne : ∀ g, g ∈ missedByEmployee st → g.2 ≠ []).
  { unfold st, reconcile. apply loop_groups_nonempty.
    intros g Hg. now apply elem_of_nil in Hg. }
  split; [exact Hne|].
  destruct (reconcile_spec scheduledParsed timesheetsParsed) as (Hf & Hc & Hn).
  fold st in Hf, Hc, Hn.
  unfold POST. fold st.
  destruct (Nat.eqb_spec (missedCount st) 0) as [H0|H0]; [exact I|].
  assert (Hkeys : (list_to_set (map fst (tableRows localeCompare (missedByEmployee st)))
                   : gset string)
                  = list_to_set (JsMap.keys (missedByEmployee st))).
  { apply set_eq. intros e. rewrite !elem_of_list_to_set.
    rewrite (tableRows_perm localeCompare _ Hn). unfold flatten, JsMap.keys.
    rewrite !list_elem_of_fmap. split.
    - intros ([e' x] & -> & Hin). simpl.
      apply list_elem_of_In, in_flat_map in Hin as ([k l] & Hg & Hx).
      apply in_map_iff in Hx as (x' & [= <- <-] & _).
      exists (k, l). split; [reflexivity|now apply list_elem_of_In].
    - intros ([k l] & -> & Hg). simpl.
      destruct l as [|x l]; [now apply Hne in Hg|].
      exists (k, x). split; [reflexivity|].
      apply list_elem_of_In, in_flat_map. exists (k, x :: l).
      split; [now apply list_elem_of_In|]. simpl. now left. }
  assert (Hlen : length (sortBy localeCompare (JsMap.keys (missedByEmployee st)))
                 = length (missedByEmployee st)).
  { rewrite length_sortBy. unfold JsMap.keys. apply length_map. }
  rewrite Hkeys, size_list_to_set by exact Hn. rewrite Hlen.
  unfold JsMap.keys. rewrite length_map.
  assert (Hsum : missedCount st
                 = list_sum (map (fun g => length g.2) (missedByEmployee st))).
  { rewrite <- length_flatten, Hf, length_map. exact Hc. }
  split; [reflexivity|].
  assert (Hle : ∀ m : list (string * list Entry),
            (∀ g, g ∈ m → g.2 ≠ []) →
            (length m ≤ list_sum (map (fun g => length g.2) m))%nat).
  { induction m as [|[k l] m IH]; intros Hm; simpl; [lia|].
    assert (l ≠ []) by (apply (Hm (k, l)); left).
    specialize (IH (fun g Hg => Hm g (list_elem_of_further _ _ _ Hg))).
    destruct l; [contradiction|]. simpl. lia. }
  specialize (Hle _ Hne). rewrite <- Hsum in Hle. split; [|exact Hle].
  destruct (missedByEmployee st); [simpl in Hsum; lia|simpl; lia].
Qed.

(** X29. Where no employee or date of the two files holds the character [|],
    a scheduled row that passed the filter is reported exactly when its three
    key fields are non-empty and no timesheet row with three non-empty key
    fields has the same employee, date and location; timesheet rows that were
    filtered out or lack a key field play no part. *)
Theorem reported_iff_no_matching_triple
    (scheduledParsed timesheetsParsed : list (list (string * jsval)))
    (r : gmap string string)
    (Hr : r ∈ List.filter keepRow (map normalizeRowKeys scheduledParsed))
    (Hbar : ∀ t, t ∈ r :: map normalizeRowKeys timesheetsParsed →
              noBar (interpolate (t !! "employee")) = true
              ∧ noBar (interpolate (t !! "date")) = true) :
  hasKeyColumns r
  && negb (bool_decide
             (keyOf r ∈ workedSet (List.filter keepRow
                                     (map normalizeRowKeys timesheetsParsed))))
  = true
  ↔ hasKeyColumns r = true
    ∧ ∀ t, t ∈ map normalizeRowKeys timesheetsParsed →
           hasKeyColumns t = true → keyFields t ≠ keyFields r.
Proof.
  apply list_elem_of_In, filter_In in Hr as [_ Hkeep].
  destruct (Hbar r ltac:(left)) as [He Hd].
  apply (missed_iff_no_matching_triple (map normalizeRowKeys timesheetsParsed) r
           Hkeep He Hd).
  intros t Ht _. apply Hbar. now right.
Qed.

(** *** Order of the table *)

Section TableOrder.
Context (compare : string → string → Z).
Hypothesis compare_flip : ∀ x y, (0 < compare x y)%Z → (compare y x <= 0)%Z.



End TableOrder.




End CrossrefMore.

(** ** Concrete runs of the further properties *)

Module Runs.
Import Examples.
Import (coercions) Payout.

Lemma codeUnitCompare_flip (a b : string) :
  (0 < codeUnitCompare a b)%Z → (codeUnitCompare b a <= 0)%Z.
Proof.
  unfold codeUnitCompare. rewrite (String.compare_antisym a b).
  destruct (String.compare b a); simpl; lia.
Qed.

Lemma summary_row_is_group_witness :
  Payout.ShiftsThatWereOwed bobSummary
  = length (SortSpec.rowsOf (fun o : Payout.OwedShift => Payout.employee o)
              (Payout.Employee bobSummary) (Payout.owedRows ∅ payroll))
  ∧ Js.eqb (Payout.TotalAmountOwed bobSummary)
      (Payout.sumOf Payout.amount_owed
         (SortSpec.rowsOf (fun o : Payout.OwedShift => Payout.employee o)
            (Payout.Employee bobSummary) (Payout.owedRows ∅ payroll))) = true.
Proof.
  apply (PayoutMore.summary_row_is_group codeUnitCompare ∅ payroll bobSummary).
  vm_compute. right. left.
Defined.



Lemma payout_reports_are_sorted_witness :
  SortSpec.sortedBy
    (fun a b => codeUnitCompare (Payout.Employee a) (Payout.Employee b))
    (Payout.summaryRows (Payout.computePayout codeUnitCompare ∅ payroll))
  ∧ SortSpec.sortedBy
      (fun a b => codeUnitCompare (Payout.Employee a) (Payout.Employee b))
      (Payout.summaryRows (Locations.report (Locations.POST codeUnitCompare payroll)))
  ∧ SortSpec.sortedBy codeUnitCompare
      (Locations.dataLocations (Locations.POST codeUnitCompare payroll)).
Proof.
  exact (PayoutMore.payout_reports_are_sorted codeUnitCompare ∅ payroll
           codeUnitCompare_flip).
Defined.

Lemma no_usable_row_gives_empty_report_witness :
  Payout.computePayout codeUnitCompare Calculate.EXCLUDED_LOCATIONS unusablePayroll
  = {| Payout.summaryRows := []; Payout.totalAmount := Js.Finite 0;
       Payout.totalShifts := 0; Payout.totalAvg := Js.Finite 0 |}.
Proof.
  apply PayoutMore.no_usable_row_gives_empty_report.
  intros raw [->|[->|H]%elem_of_cons]%elem_of_cons.
  - left. vm_compute. reflexivity.
  - right. vm_compute. reflexivity.
  - now apply elem_of_nil in H.
Defined.

Lemma table_rows_are_well_formed_witness :
  ("Alice" ≠ "")
  ∧ (Js.toLowerCase "Alice" ∉ Crossref.IGNORED_EMPLOYEES)
  ∧ (∃ d l, Crossref.date aliceEntry = Some d ∧ d ≠ ""
            ∧ Crossref.location aliceEntry = Some l ∧ l ≠ ""
            ∧ Js.toLowerCase l ∉ Crossref.IGNORED_LOCATIONS)
  ∧ (is_Some (Crossref.startEnd aliceEntry)
     ↔ is_Some (Crossref.probe Crossref.SCHEDULED_START_CANDIDATES
                  (List.filter Crossref.keepRow (map normalizeRowKeys scheduled)))
       ∧ is_Some (Crossref.probe Crossref.SCHEDULED_END_CANDIDATES
                    (List.filter Crossref.keepRow (map normalizeRowKeys scheduled)))).
Proof.
  apply (CrossrefMore.table_rows_are_well_formed codeUnitCompare scheduled timesheets
           "Alice" aliceEntry).
  vm_compute. left.
Defined.

Lemma timesheets_matter_as_a_set_witness :
  Crossref.reconcile scheduled timesheets
  = Crossref.reconcile scheduled (timesheets ++ timesheets).
Proof.
  apply CrossrefMore.timesheets_matter_as_a_set.
  intros x. rewrite elem_of_app. tauto.
Defined.

Lemma more_timesheets_fewer_misses_witness :
  (Crossref.missedCount (Crossref.reconcile scheduled timesheets)
   ≤ Crossref.missedCount (Crossref.reconcile scheduled []))%nat.
Proof.
  apply CrossrefMore.more_timesheets_fewer_misses.
  intros x H. now apply elem_of_nil in H.
Defined.


Lemma reported_iff_no_matching_triple_witness :
  Crossref.hasKeyColumns (normalizeRowKeys (shiftRow "Alice" "2024-01-01" "X"))
  && negb (bool_decide
             (Crossref.keyOf (normalizeRowKeys (shiftRow "Alice" "2024-01-01" "X"))
              ∈ Crossref.workedSet
                  (List.filter Crossref.keepRow (map normalizeRowKeys timesheets))))
  = true
  ↔ Crossref.hasKeyColumns (normalizeRowKeys (shiftRow "Alice" "2024-01-01" "X")) = true
    ∧ ∀ t, t ∈ map normalizeRowKeys timesheets →
           Crossref.hasKeyColumns t = true →
           CrossrefSpec.keyFields t
           ≠ CrossrefSpec.keyFields (normalizeRowKeys (shiftRow "Alice" "2024-01-01" "X")).
Proof.
  apply (CrossrefMore.reported_iff_no_matching_triple scheduled timesheets).
  - vm_compute. left.
  - intros t [->|[->|H]%elem_of_cons]%elem_of_cons.
    + split; vm_compute; reflexivity.
    + split; vm_compute; reflexivity.
    + now apply elem_of_nil in H.
Defined.

End Runs.
